(** * The solve pipeline of [AdvancedAICaptchaSolver]

    A shallow embedding of [src/util/AdvancedAICaptchaSolver.js]: the cache
    lookup, the lazy start of the OCR worker, the dispatch on the captcha
    service, the bounded retry loop with its back-off, and the statistics.

    Conventions of the embedding.
    - An [async] method is a computation in the monad [M]: it reads and
      updates the fields of the solver object ([this]), talks to the outside
      world (Tesseract, the two solving hooks), and ends in a [Completion]:
      the promise fulfils ([Normal]), rejects ([Throw]) or never settles
      ([Pending]).
    - What the solver does to its collaborators is recorded as a list of
      [Event]s, in program order.
    - [this.log] only writes to the console when [options.debug] is set; it
      neither fails nor touches the solver, and is left out.
    - The counters are JavaScript numbers that only ever hold naturals; they
      are modelled as [N] (exact below 2^53).
    - The methods of one solver run one after the other: a call is complete
      before the next one starts. *)

From Stdlib Require Import ZArith NArith String Ascii List Lia Bool.
From Stdlib Require Import DecimalString.
From Stdlib Require Import Floats.SpecFloat.
From stdpp Require Import base strings gmap sorting.

Local Open Scope string_scope.
Local Open Scope list_scope.

(** ** Values *)

(** What can be thrown inside the solver. *)
Inductive Error : Type :=
| TypeError                          (* reading a property of null/undefined *)
| TimeoutError                       (* [new Error('Timeout')] of the race *)
| CollaboratorError (msg : string).  (* whatever a collaborator rejects with *)

(** How an awaited promise (or a synchronous call) ends. [Pending] is a
    promise that does not settle in the time the solver waits for it. *)
Inductive Completion (A : Type) : Type :=
| Normal (a : A)
| Throw (e : Error)
| Pending.
Arguments Normal {A} a.
Arguments Throw {A} e.
Arguments Pending {A}.

(** A [?string]: [None] is [null]. *)
Definition truthy (v : option string) : bool :=
  match v with
  | Some s => negb (String.eqb s "")
  | None => false
  end.

(** [captchaData], the object received from the API. *)
Record CaptchaData : Type := mkCaptchaData {
  captcha_service : string;
  captcha_sitekey : string;
  captcha_rqtoken : string
}.

(** The two solving methods the dispatch can select. *)
Inductive Service : Type := HCaptcha | Recaptcha.

(** ** Options, statistics *)

(** [maxRetries] is the bound of a counting loop and is taken to be a
    natural number. *)
Record Options : Type := mkOptions {
  enableCaching : bool;
  maxRetries : nat;
  strategy : string;
  timeout : Z;
  debug : bool
}.

(** The [options] argument of the constructor; every field may be absent. *)
Record OptionsArg : Type := mkOptionsArg {
  arg_enableCaching : option bool;
  arg_maxRetries : option nat;
  arg_strategy : option string;
  arg_timeout : option Z;
  arg_debug : option bool
}.

Definition noOptions : OptionsArg := mkOptionsArg None None None None None.

(** [a ?? b] *)
Definition nullish {A} (a : option A) (b : A) : A :=
  match a with Some x => x | None => b end.

Record Stats : Type := mkStats {
  total : N;
  successful : N;
  failed : N;
  cached : N
}.

Definition zeroStats : Stats := mkStats 0 0 0 0.

(** ** The back-off of the retry loop: [Math.min(1000 * Math.pow(2, i), 10000)].
    The product is an exact integer as long as it matters: once it exceeds
    10000 (also when the double overflows to Infinity) the minimum is 10000. *)
Definition backoff (i : nat) : Z := Z.min (1000 * 2 ^ Z.of_nat i) 10000.

(** ** Numbers and [Number.prototype.toFixed]

    [getStats] divides two counters, multiplies by 100 and prints the result
    with [toFixed(2)]. The arithmetic is IEEE 754 binary64, taken from the
    specification of floating-point numbers of the Standard Library. *)

Definition prec64 : Z := 53.
Definition emax64 : Z := 1024.

(** The Number value of a counter (exact below 2^53, rounded above). *)
Definition number_of_N (n : N) : spec_float :=
  binary_normalize prec64 emax64 (Z.of_N n) 0 false.

(** [(count / total) * 100] *)
Definition percentage (count total : N) : spec_float :=
  SFmul prec64 emax64
    (SFdiv prec64 emax64 (number_of_N count) (number_of_N total))
    (number_of_N 100).

(** For x = m * 2^e > 0: the integer n for which n / 100 - x is as close to
    zero as possible, the larger one when there are two (step 11 of
    toFixed). *)
Definition scaled_round (m : positive) (e : Z) : N :=
  match e with
  | Z0 => 100 * Npos m
  | Zpos p => 100 * Npos m * 2 ^ Npos p
  | Zneg p => (200 * Npos m + 2 ^ Npos p) / (2 * 2 ^ Npos p)
  end.

(** x = m * 2^e >= 10^21 *)
Definition at_least_1e21 (m : positive) (e : Z) : bool :=
  match e with
  | Z0 => (10 ^ 21 <=? Npos m)%N
  | Zpos p => (10 ^ 21 <=? Npos m * 2 ^ Npos p)%N
  | Zneg p => (10 ^ 21 * 2 ^ Npos p <=? Npos m)%N
  end.

(** The decimal digits of n, no leading zero, "0" for zero. *)
Definition decimal (n : N) : string := NilZero.string_of_uint (N.to_uint n).

Definition digit (n : N) : string :=
  String (ascii_of_N (48 + n mod 10)) "".

(** Step 11.c of toFixed with f = 2: the digits of n, with the point before
    the last two (and zeros in front when n has fewer than three digits). *)
Definition point2 (n : N) : string :=
  decimal (n / 100) +:+ "." +:+ digit (n / 10) +:+ digit n.

Section ToFixed.

(** [Number::toString] of the runtime, which toFixed falls back to for
    finite values of magnitude 10^21 and more. *)
Variable Number_toString : spec_float -> string.

(** [x.toFixed(2)] *)
Definition toFixed2 (x : spec_float) : string :=
  match x with
  | S754_nan => "NaN"
  | S754_infinity false => "Infinity"
  | S754_infinity true => "-Infinity"
  | S754_zero _ => "0.00"
  | S754_finite sign m e =>
      (if sign then "-" else "") +:+
      (if at_least_1e21 m e then Number_toString (S754_finite false m e)
       else point2 (scaled_round m e))
  end.

(** The two derived fields of [getStats]. *)
Definition rate (count total : N) : string :=
  if (0 <? total)%N then toFixed2 (percentage count total) +:+ "%" else "N/A".

End ToFixed.

Section Pipeline.

(** The collaborators, which are not part of the repository's logic:
    the outside world, Tesseract's worker, and the two solving hooks
    ([_advancedHCaptchaSolve], [_advancedRecaptchaSolve]) that an integrator
    overrides. A hook gets [(sitekey, rqtoken, userAgent)]; it may fulfil,
    reject or stay pending, and only acts on the world, not on the solver.
    [createWorker] fulfils with a worker or rejects; [terminate] fulfils. *)
Context {World Worker : Type}.
Variable createWorker : World -> (Error + Worker) * World.
Variable terminate : Worker -> World -> World.
Variable _advancedHCaptchaSolve :
  string -> string -> string -> World -> Completion (option string) * World.
Variable _advancedRecaptchaSolve :
  string -> string -> string -> World -> Completion (option string) * World.

(** ** The solver object *)

Record Solver : Type := mkSolver {
  options : Options;
  worker : option Worker;
  initialized : bool;
  cache : gmap string string;
  stats : Stats
}.

Definition set_worker (wk : option Worker) (s : Solver) : Solver :=
  mkSolver (options s) wk (initialized s) (cache s) (stats s).
Definition set_initialized (b : bool) (s : Solver) : Solver :=
  mkSolver (options s) (worker s) b (cache s) (stats s).
Definition set_cache (c : gmap string string) (s : Solver) : Solver :=
  mkSolver (options s) (worker s) (initialized s) c (stats s).
Definition set_stats (st : Stats) (s : Solver) : Solver :=
  mkSolver (options s) (worker s) (initialized s) (cache s) st.

(** [this.stats.total++] and its three siblings. *)
Definition incr_total (s : Solver) : Solver :=
  let st := stats s in
  set_stats (mkStats (N.succ (total st)) (successful st) (failed st) (cached st)) s.
Definition incr_successful (s : Solver) : Solver :=
  let st := stats s in
  set_stats (mkStats (total st) (N.succ (successful st)) (failed st) (cached st)) s.
Definition incr_failed (s : Solver) : Solver :=
  let st := stats s in
  set_stats (mkStats (total st) (successful st) (N.succ (failed st)) (cached st)) s.
Definition incr_cached (s : Solver) : Solver :=
  let st := stats s in
  set_stats (mkStats (total st) (successful st) (failed st) (N.succ (cached st))) s.

(** [constructor(options = {})] *)
Definition new (o : OptionsArg) : Solver :=
  mkSolver
    (mkOptions (nullish (arg_enableCaching o) true)
               (nullish (arg_maxRetries o) 3%nat)
               (nullish (arg_strategy o) "auto")
               (nullish (arg_timeout o) 30000%Z)
               (nullish (arg_debug o) false))
    None false ∅ zeroStats.

(** ** Events and the monad *)

Inductive Event : Type :=
| EvCreateWorker                       (* [Tesseract.createWorker] called *)
| EvTerminate (wk : Worker)            (* [worker.terminate()] *)
| EvTimer (ms : Z)                     (* the timeout timer of one attempt *)
| EvStrategy (svc : Service) (sitekey rqtoken userAgent : string)
                                       (* a solving hook invoked *)
| EvSleep (ms : Z).                    (* [await setTimeout(backoff)] *)

Record Out (A : Type) : Type := mkOut {
  res : Completion A;
  self : Solver;
  world : World;
  events : list Event
}.
Arguments mkOut {A} res self world events.
Arguments res {A} o.
Arguments self {A} o.
Arguments world {A} o.
Arguments events {A} o.

Definition M (A : Type) : Type := Solver -> World -> Out A.

Definition ret {A} (a : A) : M A := fun s w => mkOut (Normal a) s w [].

Definition throw {A} (e : Error) : M A := fun s w => mkOut (Throw e) s w [].

(** [o] with the events [evs] in front. *)
Definition after {A} (evs : list Event) (o : Out A) : Out A :=
  match o with
  | mkOut r s w evs' => mkOut r s w (evs ++ evs')
  end.

Definition bind {A B} (m : M A) (k : A -> M B) : M B := fun s w =>
  match m s w with
  | mkOut (Normal a) s' w' evs => after evs (k a s' w')
  | mkOut (Throw e) s' w' evs => mkOut (Throw e) s' w' evs
  | mkOut Pending s' w' evs => mkOut Pending s' w' evs
  end.

(** [try { body } catch (error) { handler }]: only a rejection is caught. *)
Definition try_catch {A} (body : M A) (handler : Error -> M A) : M A := fun s w =>
  match body s w with
  | mkOut (Throw e) s' w' evs => after evs (handler e s' w')
  | o => o
  end.

Definition get : M Solver := fun s w => mkOut (Normal s) s w [].
Definition modify (f : Solver -> Solver) : M unit := fun s w => mkOut (Normal tt) (f s) w [].
Definition emit (e : Event) : M unit := fun s w => mkOut (Normal tt) s w [e].

(** Awaiting a collaborator that only acts on the world. *)
Definition await {A} (f : World -> Completion A * World) : M A := fun s w =>
  let (c, w') := f w in mkOut c s w' [].

Declare Scope M_scope.
Delimit Scope M_scope with M.
Bind Scope M_scope with M.
Notation "x ← y ; z" := (bind y (fun x => z))
  (at level 20, y at level 100, z at level 200, only parsing) : M_scope.
Notation "x ;; z" := (bind x (fun _ => z))
  (at level 100, z at level 200, only parsing, right associativity) : M_scope.
Local Open Scope M_scope.

(** ** [initialize] *)
Definition initialize : M unit :=
  s ← get ;
  if initialized s then ret tt
  else
    try_catch
      (emit EvCreateWorker ;;
       wk ← await (fun w =>
               match createWorker w with
               | (inr wk, w') => (Normal wk, w')
               | (inl e, w') => (Throw e, w')
               end) ;
       modify (set_worker (Some wk)) ;;
       modify (set_initialized true))
      (fun _ => ret tt).

(** ** The solving methods: each delegates to its hook. *)

(** One call of a hook, recorded by [ev]. *)
Definition attempt (ev : Event) (f : World -> Completion (option string) * World)
  : M (option string) :=
  emit ev ;; await f.

Definition solveHCaptcha (sitekey rqtoken userAgent : string) : M (option string) :=
  attempt (EvStrategy HCaptcha sitekey rqtoken userAgent)
          (_advancedHCaptchaSolve sitekey rqtoken userAgent).

Definition solveRecaptcha (sitekey rqtoken userAgent : string) : M (option string) :=
  attempt (EvStrategy Recaptcha sitekey rqtoken userAgent)
          (_advancedRecaptchaSolve sitekey rqtoken userAgent).

(** ** [solveWithRetry] *)

(** [Promise.race([solveFn(), timeoutPromise])]: the timer is armed, the
    function is called; a call that does not settle loses to the timer,
    which rejects with [Error('Timeout')]. *)
Definition race (ms : Z) (solveFn : M (option string)) : M (option string) :=
  emit (EvTimer ms) ;;
  fun s w =>
    match solveFn s w with
    | mkOut Pending s' w' evs => mkOut (Throw TimeoutError) s' w' evs
    | o => o
    end.

(** The [for] loop, from index [i] with [remaining = maxRetries - i] rounds
    to go. [options] is assigned once, in the constructor, so it is read on
    entry. One round is the [try]/[catch]; [inl] is the value of the race,
    [inr] the error caught (kept in [lastError] for the log only). *)
Fixpoint retry_loop (opts : Options) (solveFn : M (option string))
    (remaining i : nat) : M (option string) :=
  match remaining with
  | O => ret None
  | S remaining' =>
      r ← try_catch
             (solution ← race (timeout opts) solveFn ; ret (inl solution))
             (fun error =>
                (if (i <? maxRetries opts - 1)%nat
                 then emit (EvSleep (backoff i))
                 else ret tt) ;;
                ret (inr error)) ;
      match r with
      | inl solution =>
          if truthy solution then ret solution
          else retry_loop opts solveFn remaining' (S i)
      | inr _ => retry_loop opts solveFn remaining' (S i)
      end
  end.

Definition solveWithRetry (solveFn : M (option string)) : M (option string) :=
  s ← get ;
  retry_loop (options s) solveFn (maxRetries (options s)) 0.

(** ** [getCacheKey]: the template [`${service}:${sitekey}`]. *)
Definition cacheKey (d : CaptchaData) : string :=
  captcha_service d +:+ ":" +:+ captcha_sitekey d.

(** [captchaData] may be [null] or [undefined] ([None]); reading a property
    of it throws. *)
Definition getCacheKey (captchaData : option CaptchaData) : M string :=
  match captchaData with
  | Some d => ret (cacheKey d)
  | None => throw TypeError
  end.

(** [const { captcha_service, captcha_sitekey, captcha_rqtoken } = captchaData] *)
Definition destructure (captchaData : option CaptchaData) : M CaptchaData :=
  match captchaData with
  | Some d => ret d
  | None => throw TypeError
  end.

(** ** [solve] *)

(** The [if]/[else if]/[else] on [captcha_service]; its value is what
    [solution] holds afterwards. *)
Definition dispatch (d : CaptchaData) (userAgent : string) : M (option string) :=
  if String.eqb (captcha_service d) "hcaptcha" then
    solveWithRetry
      (solveHCaptcha (captcha_sitekey d) (captcha_rqtoken d) userAgent)
  else if String.eqb (captcha_service d) "recaptcha" then
    solveWithRetry
      (solveRecaptcha (captcha_sitekey d) (captcha_rqtoken d) userAgent)
  else ret None.

(** The two [if (solution ...)] statements that follow: the cache write and
    the counters. *)
Definition record_outcome (key : string) (solution : option string) : M unit :=
  s ← get ;
  (if truthy solution && enableCaching (options s) then
     match solution with
     | Some v => modify (fun s => set_cache (<[key := v]> (cache s)) s)
     | None => ret tt
     end
   else ret tt) ;;
  (if truthy solution then modify incr_successful else modify incr_failed).

(** The body of the [try] block. *)
Definition solve_try (captchaData : option CaptchaData) (userAgent : string)
  : M (option string) :=
  key ← getCacheKey captchaData ;
  s ← get ;
  if enableCaching (options s) && bool_decide (is_Some (cache s !! key)) then
    modify incr_cached ;;
    s' ← get ;
    ret (cache s' !! key)
  else
    initialize ;;
    d ← destructure captchaData ;
    solution ← dispatch d userAgent ;
    record_outcome key solution ;;
    ret solution.

Definition solve (captchaData : option CaptchaData) (userAgent : string)
  : M (option string) :=
  modify incr_total ;;
  try_catch
    (solve_try captchaData userAgent)
    (fun _ => modify incr_failed ;; ret None).

(** The test of the first [if] of [solve]: caching is on and the key is in
    the map. *)
Definition cache_hit (s : Solver) (d : CaptchaData) : bool :=
  enableCaching (options s) && bool_decide (is_Some (cache s !! cacheKey d)).

(** The solver after [record_outcome]. *)
Definition recorded (key : string) (solution : option string) (s : Solver) : Solver :=
  match solution with
  | Some v =>
      if truthy solution then
        incr_successful
          (if enableCaching (options s) then set_cache (<[key := v]> (cache s)) s else s)
      else incr_failed s
  | None => incr_failed s
  end.

(** ** [clearCache], [resetStats], [cleanup] *)
Definition clearCache : M unit := modify (set_cache ∅).

Definition resetStats : M unit := modify (set_stats zeroStats).

Definition cleanup : M unit :=
  s ← get ;
  (match worker s with
   | Some wk =>
       emit (EvTerminate wk) ;;
       await (fun w => (Normal tt, terminate wk w)) ;;
       modify (set_worker None) ;;
       modify (set_initialized false)
   | None => ret tt
   end) ;;
  clearCache.

(** ** [getStats] *)

Variable Number_toString : spec_float -> string.

Record StatsReport : Type := mkStatsReport {
  report_total : N;
  report_successful : N;
  report_failed : N;
  report_cached : N;
  successRate : string;
  cacheHitRate : string
}.

Definition getStats (s : Solver) : StatsReport :=
  let st := stats s in
  mkStatsReport (total st) (successful st) (failed st) (cached st)
    (rate Number_toString (successful st) (total st))
    (rate Number_toString (cached st) (total st)).

(** ** The states a solver goes through

    A solver is built by [new] and then only changed by its public methods.
    [extractText] changes the solver only through [initialize] (when it is
    not initialized yet), so its step is that of [initialize]. *)
Inductive reachable (o : OptionsArg) : Solver -> Prop :=
| reach_new : reachable o (new o)
| reach_solve s captchaData userAgent w :
    reachable o s -> reachable o (self (solve captchaData userAgent s w))
| reach_extractText s w :
    reachable o s -> reachable o (self (initialize s w))
| reach_clearCache s w :
    reachable o s -> reachable o (self (clearCache s w))
| reach_resetStats s w :
    reachable o s -> reachable o (self (resetStats s w))
| reach_cleanup s w :
    reachable o s -> reachable o (self (cleanup s w)).

(** ** What holds of every reachable solver *)

(** Every call is counted in exactly one of the three outcome counters. *)
Definition balanced (st : Stats) : Prop :=
  total st = (successful st + failed st + cached st)%N.

(** No character of [s] is a colon. *)
Fixpoint colon_free (s : string) : bool :=
  match s with
  | EmptyString => true
  | String c s' => negb (Ascii.eqb c ":") && colon_free s'
  end.

(** A key written by [solve]: the service was one of the two known ones. *)
Definition known_key (key : string) : Prop :=
  exists sitekey, key = "hcaptcha:" +:+ sitekey \/ key = "recaptcha:" +:+ sitekey.

Definition invariant (o : OptionsArg) (s : Solver) : Prop :=
  options s = options (new o) /\
  (initialized s = true -> is_Some (worker s)) /\
  balanced (stats s) /\
  (forall key v, cache s !! key = Some v -> known_key key /\ v <> "").

(** ** Reading a trace *)

Definition is_strategy (e : Event) : bool :=
  match e with EvStrategy _ _ _ _ => true | _ => false end.

Definition strategy_calls (evs : list Event) : nat :=
  List.length (List.filter is_strategy evs).

Definition sleeps (evs : list Event) : list Z :=
  omap (fun e => match e with EvSleep ms => Some ms | _ => None end) evs.

(** ** The attempts of a retry loop, seen from the hook

    Between two attempts the world is only changed by the hook itself, so
    the j-th call of a hook [f] (from zero) starts in [world_before f j w]. *)
Fixpoint world_before (f : World -> Completion (option string) * World)
    (j : nat) (w : World) : World :=
  match j with
  | O => w
  | S j' => world_before f j' (snd (f w))
  end.

Definition outcome_at (f : World -> Completion (option string) * World)
    (j : nat) (w : World) : Completion (option string) :=
  fst (f (world_before f j w)).

(** The attempt produced a solution the loop accepts. *)
Definition accepted (c : Completion (option string)) : bool :=
  match c with
  | Normal v => truthy v
  | _ => false
  end.

(** The attempt ends in the [catch]: the hook threw, or the timer won. *)
Definition caught (c : Completion (option string)) : bool :=
  match c with
  | Normal _ => false
  | _ => true
  end.

(** The events of one round of the retry loop at index [i], when the
    attempt ends as [c]. *)
Definition round_events (opts : Options) (ev : Event) (i : nat)
    (c : Completion (option string)) : list Event :=
  [EvTimer (timeout opts); ev]
  ++ (if caught c && (i <? maxRetries opts - 1)%nat then [EvSleep (backoff i)] else []).

(** The trace of a loop of [n] rounds from index [i] in which every attempt
    is caught. *)
Fixpoint caught_trace (opts : Options) (ev : Event) (n i : nat) : list Event :=
  match n with
  | O => []
  | S n' =>
      [EvTimer (timeout opts); ev]
      ++ (if (i <? maxRetries opts - 1)%nat then [EvSleep (backoff i)] else [])
      ++ caught_trace opts ev n' (S i)
  end.

End Pipeline.

Arguments mkOut {World Worker A} res self world events.
Arguments res {World Worker A} o.
Arguments self {World Worker A} o.
Arguments world {World Worker A} o.
Arguments events {World Worker A} o.

(** ** Concrete collaborators

    The placeholder hooks of the repository, and a few other hooks and
    engines to run the solver on. The world is a counter of hook calls;
    a worker is a number. *)

(** [_advancedHCaptchaSolve] and [_advancedRecaptchaSolve] as shipped:
    [return null]. *)
Definition placeholder_hook (sitekey rqtoken userAgent : string) (w : nat)
  : Completion (option string) * nat := (Normal None, S w).

Definition constant_hook (v : option string) (sitekey rqtoken userAgent : string)
    (w : nat) : Completion (option string) * nat := (Normal v, S w).

Definition throwing_hook (sitekey rqtoken userAgent : string) (w : nat)
  : Completion (option string) * nat := (Throw (CollaboratorError "boom"), S w).

Definition hanging_hook (sitekey rqtoken userAgent : string) (w : nat)
  : Completion (option string) * nat := (Pending, S w).

(** Throws on its first [k] calls, then answers [v]. *)
Definition late_hook (k : nat) (v : string) (sitekey rqtoken userAgent : string)
    (w : nat) : Completion (option string) * nat :=
  (if (w <? k)%nat then Throw (CollaboratorError "busy") else Normal (Some v), S w).

Definition working_engine (w : nat) : (Error + nat) * nat := (inr 1%nat, w).
Definition broken_engine (w : nat) : (Error + nat) * nat :=
  (inl (CollaboratorError "no worker"), w).
Definition terminate_engine (wk : nat) (w : nat) : nat := w.

(** A stand-in for [Number::toString]; no rate computed below is large
    enough to reach it. *)
Definition opaque_toString (x : spec_float) : string := "1e+21".

Definition request (service sitekey rqtoken : string) : option CaptchaData :=
  Some (mkCaptchaData service sitekey rqtoken).

(** A solver that has solved one hCaptcha for site key "sk1" with a hook
    answering "sol-A". *)
Definition solved_once : Out (World:=nat) (Worker:=nat) (option string) :=
  solve working_engine (constant_hook (Some "sol-A")) placeholder_hook
        (request "hcaptcha" "sk1" "token-1") "Mozilla/5.0" (new noOptions) 0%nat.

(** The same for the site key "x:y". *)
Definition solved_colon : Out (World:=nat) (Worker:=nat) (option string) :=
  solve working_engine (constant_hook (Some "sol-A")) placeholder_hook
        (request "hcaptcha" "x:y" "token-1") "Mozilla/5.0" (new noOptions) 0%nat.

(** The constructor argument [{ maxRetries: 4 }]. *)
Definition fourRetries : OptionsArg :=
  mkOptionsArg None (Some 4%nat) None None None.

(** ** [extractText] *)

Declare Scope M_scope.
Delimit Scope M_scope with M.

Section Ocr.

(** [recognize] is [worker.recognize(imageData, options)] reduced to what
    [extractText] uses of it: the text [result.data.text], or a rejection
    (also when the result carries no text). [trim] is
    [String.prototype.trim] of the runtime. *)
Context {World Worker Image OcrOptions : Type}.
Variable createWorker : World -> (Error + Worker) * World.
Variable recognize : Worker -> Image -> OcrOptions -> World -> (Error + string) * World.
Variable trim : string -> string.

Local Notation "x ← y ; z" := (bind y (fun x => z))
  (at level 20, y at level 100, z at level 200, only parsing) : M_scope.
Local Notation "x ;; z" := (bind x (fun _ => z))
  (at level 100, z at level 200, only parsing, right associativity) : M_scope.
Local Open Scope M_scope.

Definition extractText (imageData : Image) (ocrOptions : OcrOptions)
  : M (World:=World) (Worker:=Worker) string :=
  s ← get ;
  (if negb (initialized s) then initialize createWorker else ret tt) ;;
  try_catch
    (s' ← get ;
     match worker s' with
     | None => throw TypeError
     | Some wk =>
         text ← await (fun w =>
                  match recognize wk imageData ocrOptions w with
                  | (inr text, w') => (Normal text, w')
                  | (inl e, w') => (Throw e, w')
                  end) ;
         ret (trim text)
     end)
    (fun _ => ret "").

End Ocr.

(** ** Further readers of a trace *)

(** The time spent in back-off sleeps, in milliseconds. *)
Definition total_sleep {Worker : Type} (evs : list (@Event Worker)) : Z :=
  List.fold_right Z.add 0%Z (sleeps evs).

Definition is_createWorker {Worker : Type} (e : @Event Worker) : bool :=
  match e with EvCreateWorker => true | _ => false end.

(** How often the engine was started. *)
Definition engine_starts {Worker : Type} (evs : list (@Event Worker)) : nat :=
  List.length (List.filter is_createWorker evs).

Definition is_timer {Worker : Type} (e : @Event Worker) : bool :=
  match e with EvTimer _ => true | _ => false end.

(** How many timeout timers were armed. *)
Definition timers {Worker : Type} (evs : list (@Event Worker)) : nat :=
  List.length (List.filter is_timer evs).

(** The value of [captcha_service] that selects a solving method. *)
Definition service_name (svc : Service) : string :=
  match svc with
  | HCaptcha => "hcaptcha"
  | Recaptcha => "recaptcha"
  end.

(** What [solve] may do for the request [cd] with the user agent [ua] on a
    solver with the options [opts]: start the engine, arm a timer with the
    configured timeout, call the hook of the request's service with the
    request's own site key, request token and user agent, and sleep. *)
Definition allowed_event {Worker : Type} (opts : Options)
    (cd : option CaptchaData) (ua : string) (e : @Event Worker) : Prop :=
  match e with
  | EvCreateWorker => True
  | EvTerminate _ => False
  | EvTimer ms => ms = timeout opts
  | EvStrategy svc k t ua' =>
      exists d, cd = Some d /\ captcha_service d = service_name svc /\
                k = captcha_sitekey d /\ t = captcha_rqtoken d /\ ua' = ua
  | EvSleep ms => (1000 <= ms <= 10000)%Z
  end.


(** * [AutomationUtils]

    The helpers of [src/util/AutomationUtils.js] whose logic does not
    depend on real time or on random numbers. [Date.now()] is an argument
    of the function that reads it; times are integers (milliseconds). *)

Module AutomationUtils.

(** ** [createSpamDetector] *)

(** [now - t < 1000] *)
Definition recent (now t : Z) : bool := (now - t <? 1000)%Z.

(** The function [createSpamDetector(threshold)] returns, applied to
    [userId] when [Date.now()] is [now]; [messageTimestamps] is the map it
    closes over. *)
Definition spamDetector (threshold : Z) (userId : string) (now : Z)
    (messageTimestamps : gmap string (list Z)) : gmap string (list Z) * bool :=
  let timestamps := default [] (messageTimestamps !! userId) in
  let recentTimestamps := List.filter (recent now) timestamps ++ [now] in
  (<[userId := recentTimestamps]> messageTimestamps,
   (threshold <? Z.of_nat (List.length recentTimestamps))%Z).

(** The map after the checks [calls] (user and time, in the order they were
    made) on a new detector. *)
Definition spam_history (threshold : Z) (calls : list (string * Z))
  : gmap string (list Z) :=
  List.fold_left (fun st c => fst (spamDetector threshold (fst c) (snd c) st)) calls ∅.

(** The messages of [userId] among [calls] that are less than a second
    older than [now]. *)
Definition recent_messages (userId : string) (now : Z) (calls : list (string * Z))
  : list (string * Z) :=
  List.filter (fun c => String.eqb (fst c) userId && recent now (snd c)) calls.

(** ** [createRateLimiter] *)

(** [Math.min(...l)]; [None] is [Infinity], the minimum of nothing. *)
Definition math_min (l : list Z) : option Z :=
  match l with
  | [] => None
  | t :: l' => Some (List.fold_left Z.min l' t)
  end.

(** The time [execute] sleeps before it runs the action, if it does:
    [Some None] is a sleep of [Infinity]. [queue] holds the times of the
    last actions, [now] is the first [Date.now()]. *)
Definition waitTime (maxActions : nat) (timeWindowMs now : Z) (queue : list Z)
  : option (option Z) :=
  let validActions := List.filter (fun time => (now - time <? timeWindowMs)%Z) queue in
  if (maxActions <=? List.length validActions)%nat then
    Some (match math_min validActions with
          | Some oldestAction => Some (timeWindowMs - (now - oldestAction))%Z
          | None => None
          end)
  else None.

(** The queue after [execute]: the second [Date.now()], [started], is
    pushed, and the front is shifted out while there are more than
    [maxActions] entries. *)
Definition execute_queue (maxActions : nat) (started : Z) (queue : list Z) : list Z :=
  let queue := queue ++ [started] in
  List.skipn (List.length queue - maxActions) queue.

(** A sequence of calls of one limiter, each complete before the next:
    [starts] are the times at which the actions were started, in order,
    [queue] is the limiter's queue and [clock] the time of the last start.
    The clock never goes back, and a sleep lasts at least as long as asked. *)
Inductive limiter_run (maxActions : nat) (timeWindowMs : Z)
  : list Z -> list Z -> Z -> Prop :=
| run_new clock : limiter_run maxActions timeWindowMs [] [] clock
| run_execute starts queue clock now started :
    limiter_run maxActions timeWindowMs starts queue clock ->
    (clock <= now)%Z -> (now <= started)%Z ->
    (forall ms, waitTime maxActions timeWindowMs now queue = Some (Some ms) ->
                (now + ms <= started)%Z) ->
    limiter_run maxActions timeWindowMs (starts ++ [started])
                (execute_queue maxActions started queue) started.

(** ** [createMessageQueue] *)

Section MessageQueue.

Context {World Message Channel : Type}.

Record QueueItem : Type := mkQueueItem {
  message : Message;
  channel : Channel;
  priority : Z;
  timestamp : Z
}.

(** The comparator of [add]:
    [b.priority - a.priority || a.timestamp - b.timestamp]. *)
Definition compareItems (a b : QueueItem) : Z :=
  let byPriority := (priority b - priority a)%Z in
  if (byPriority =? 0)%Z then (timestamp a - timestamp b)%Z else byPriority.

(** [Array.prototype.sort] is stable, which fixes its result for a
    comparator that is a total preorder, as this one is: the insertion
    sort that puts each element behind those that do not come after it. *)
Fixpoint sort_insert (cmp : QueueItem -> QueueItem -> Z) (x : QueueItem)
    (sorted : list QueueItem) : list QueueItem :=
  match sorted with
  | [] => [x]
  | y :: rest =>
      if (cmp x y <? 0)%Z then x :: y :: rest
      else y :: sort_insert cmp x rest
  end.

Definition array_sort (cmp : QueueItem -> QueueItem -> Z) (l : list QueueItem)
  : list QueueItem :=
  List.fold_left (fun sorted x => sort_insert cmp x sorted) l [].

(** The two variables the queue object closes over. *)
Record MessageQueue : Type := mkMessageQueue {
  queue : list QueueItem;
  processing : bool
}.

Definition createMessageQueue : MessageQueue := mkMessageQueue [] false.

(** [add(message, channel, priority = 0)] when [Date.now()] is [now]. *)
Definition add (m : Message) (c : Channel) (p : option Z) (now : Z)
    (q : MessageQueue) : MessageQueue :=
  mkMessageQueue
    (array_sort compareItems (queue q ++ [mkQueueItem m c (nullish p 0%Z) now]))
    (processing q).


Definition size (q : MessageQueue) : nat := List.length (queue q).

(** [item.channel.send(item.message)], which may reject. *)
Variable send : Channel -> Message -> World -> (Error + unit) * World.

(** What [process] does: a send and how it ended, and a call of
    [smartDelay(delayMs)] (whose random duration is not modelled). *)
Inductive QueueEvent : Type :=
| Sent (c : Channel) (m : Message) (ok : bool)
| SmartDelay (delayMs : Z).

(** The [while] loop of [process] on the items still queued; no [add]
    comes in between. *)
Fixpoint process_loop (delayMs : Z) (items : list QueueItem) (w : World)
  : World * list QueueEvent :=
  match items with
  | [] => (w, [])
  | item :: rest =>
      match send (channel item) (message item) w with
      | (inr _, w') =>
          let (w'', evs) := process_loop delayMs rest w' in
          (w'', Sent (channel item) (message item) true :: SmartDelay delayMs :: evs)
      | (inl _, w') =>
          let (w'', evs) := process_loop delayMs rest w' in
          (w'', Sent (channel item) (message item) false :: evs)
      end
  end.

(** [process(delayMs = 1000)] *)
Definition process (delayMs : option Z) (q : MessageQueue) (w : World)
  : MessageQueue * World * list QueueEvent :=
  if processing q then (q, w, [])
  else
    let (w', evs) := process_loop (nullish delayMs 1000%Z) (queue q) w in
    (mkMessageQueue [] false, w', evs).

(** The sends of a trace, with how each ended, and its delays. *)
Definition attempted (evs : list QueueEvent) : list (Channel * Message * bool) :=
  omap (fun e => match e with Sent c m ok => Some (c, m, ok) | _ => None end) evs.

Definition smart_delays (evs : list QueueEvent) : list Z :=
  omap (fun e => match e with SmartDelay d => Some d | _ => None end) evs.

(** What [send] answers for each item of [items], sent in this order. *)
Fixpoint send_results (items : list QueueItem) (w : World) : list bool :=
  match items with
  | [] => []
  | item :: rest =>
      let (r, w') := send (channel item) (message item) w in
      match r with inr _ => true | inl _ => false end :: send_results rest w'
  end.

(** An item comes before another in the order of the queue, or ties. *)
Definition ranks_before (a b : QueueItem) : Prop :=
  (priority b < priority a)%Z \/
  (priority a = priority b /\ (timestamp a <= timestamp b)%Z).

End MessageQueue.

(** ** [fetchUsersBatch] *)

Section FetchUsers.

Context {World User : Type}.

(** [client.users.fetch(id)], which may reject. *)
Variable fetch : string -> World -> (Error + User) * World.

(** [Promise.all(batch.map(id => fetch(id).catch(() => null)))]: the
    fetches are started in the order of the batch; [None] is [null]. *)
Fixpoint fetch_all (batch : list string) (w : World) : list (option User) * World :=
  match batch with
  | [] => ([], w)
  | id :: rest =>
      let (r, w') := fetch id w in
      let (rs, w'') := fetch_all rest w' in
      (match r with inr u => Some u | inl _ => None end :: rs, w'')
  end.

(** The [for] loop from index [i]; [delays] counts the calls of
    [smartDelay(1000)]. The loop need not end: [None] when [fuel] rounds
    were not enough. *)
Fixpoint fetch_loop (fuel : nat) (userIds : list string) (batchSize i : nat)
    (users : list User) (delays : nat) (w : World)
  : option (list User * nat * World) :=
  match fuel with
  | O => None
  | S fuel' =>
      if (i <? List.length userIds)%nat then
        let batch := List.firstn batchSize (List.skipn i userIds) in
        let (batchUsers, w') := fetch_all batch w in
        fetch_loop fuel' userIds batchSize (i + batchSize)
                   (users ++ omap id batchUsers) (S delays) w'
      else Some (users, delays, w)
  end.

(** [fetchUsersBatch(client, userIds, batchSize = 5)] *)
Definition fetchUsersBatch (fuel : nat) (userIds : list string) (batchSize : option nat)
    (w : World) : option (list User * nat * World) :=
  fetch_loop fuel userIds (nullish batchSize 5%nat) 0 [] 0 w.

End FetchUsers.

(** ** [cyclePresences] *)

(** One tick of the interval: [presences[index]] is set ([None] is
    [undefined]) and the index advances; an index of [None] is [NaN], which
    [(index + 1) % 0] gives for an empty array. *)
Definition tick {Presence : Type} (presences : list Presence) (index : option nat)
  : option Presence * option nat :=
  match index with
  | Some i =>
      (presences !! i,
       match List.length presences with
       | O => None
       | S _ => Some ((i + 1) mod List.length presences)%nat
       end)
  | None => (None, None)
  end.

(** The presences set by the first [n] ticks, from the index 0. *)
Fixpoint ticks {Presence : Type} (presences : list Presence) (n : nat)
    (index : option nat) : list (option Presence) :=
  match n with
  | O => []
  | S n' =>
      let (p, index') := tick presences index in
      p :: ticks presences n' index'
  end.

End AutomationUtils.


(** ** More concrete collaborators *)

(** A user fetch that fails for the id "gone" and answers the id itself
    otherwise; the world counts the fetches. *)
Definition example_fetch (id : string) (w : nat) : (Error + string) * nat :=
  (if String.eqb id "gone" then inl (CollaboratorError "Unknown User") else inr id, S w).

(** Three checks of the spam detector: two by "u", one by "v". *)
Definition example_checks : list (string * Z) :=
  [("u", 0%Z); ("u", 100%Z); ("v", 200%Z)].


(** * Properties *)

Section Facts.

Context {World Worker : Type}.
Variable createWorker : World -> (Error + Worker) * World.
Variable terminate : Worker -> World -> World.
Variable _advancedHCaptchaSolve :
  string -> string -> string -> World -> Completion (option string) * World.
Variable _advancedRecaptchaSolve :
  string -> string -> string -> World -> Completion (option string) * World.

Local Abbreviation Hook := (World -> Completion (option string) * World).
Local Abbreviation solve_ := (solve createWorker _advancedHCaptchaSolve _advancedRecaptchaSolve).
Local Abbreviation dispatch_ := (dispatch _advancedHCaptchaSolve _advancedRecaptchaSolve).
Local Abbreviation reachable_ :=
  (reachable createWorker terminate _advancedHCaptchaSolve _advancedRecaptchaSolve).

Implicit Types (s : @Solver Worker) (w : World) (d : CaptchaData).

(** ** Reading an outcome with events in front *)

Lemma res_after {A} evs (o : Out (World:=World) (Worker:=Worker) A) :
  res (after evs o) = res o.
Proof. destruct o; reflexivity. Qed.

Lemma self_after {A} evs (o : Out (World:=World) (Worker:=Worker) A) :
  self (after evs o) = self o.
Proof. destruct o; reflexivity. Qed.

Lemma world_after {A} evs (o : Out (World:=World) (Worker:=Worker) A) :
  world (after evs o) = world o.
Proof. destruct o; reflexivity. Qed.

Lemma events_after {A} evs (o : Out (World:=World) (Worker:=Worker) A) :
  events (after evs o) = evs ++ events o.
Proof. destruct o; reflexivity. Qed.

Lemma after_nil {A} (o : Out (World:=World) (Worker:=Worker) A) : after [] o = o.
Proof. destruct o; reflexivity. Qed.

Lemma after_after {A} evs evs' (o : Out (World:=World) (Worker:=Worker) A) :
  after evs (after evs' o) = after (evs ++ evs') o.
Proof. destruct o; simpl. rewrite app_assoc. reflexivity. Qed.

(** ** [initialize] *)

Lemma initialize_done s w :
  initialized s = true -> initialize createWorker s w = mkOut (Normal tt) s w [].
Proof. intros Hi. unfold initialize, bind, get. rewrite Hi. reflexivity. Qed.

Lemma initialize_start s w :
  initialized s = false ->
  initialize createWorker s w =
  match createWorker w with
  | (inr wk, w') =>
      mkOut (Normal tt) (set_initialized true (set_worker (Some wk) s)) w' [EvCreateWorker]
  | (inl _, w') => mkOut (Normal tt) s w' [EvCreateWorker]
  end.
Proof.
  intros Hi. unfold initialize, bind, get. rewrite Hi.
  unfold try_catch, bind, await, emit, modify. simpl.
  destruct (createWorker w) as [[e | wk] w']; reflexivity.
Qed.

(** [initialize] fulfils, and only touches [worker] and [initialized]. *)
Lemma initialize_frame s w :
  let o := initialize createWorker s w in
  res o = Normal tt /\ options (self o) = options s /\
  cache (self o) = cache s /\ stats (self o) = stats s /\
  events o = (if initialized s then [] else [EvCreateWorker]).
Proof.
  destruct (initialized s) eqn:Hi.
  - rewrite initialize_done by assumption. simpl. auto.
  - rewrite initialize_start by assumption.
    destruct (createWorker w) as [[e | wk] w']; simpl; auto.
Qed.

(** ** The retry loop *)

(** One round of the loop on a hook. *)
Lemma retry_loop_round opts ev (f : Hook) n i s w :
  retry_loop opts (attempt ev f) (S n) i s w =
  let (c, w') := f w in
  let again := retry_loop opts (attempt ev f) n (S i) s w' in
  match c with
  | Normal v =>
      if truthy v then mkOut (Normal v) s w' [EvTimer (timeout opts); ev]
      else after [EvTimer (timeout opts); ev] again
  | _ =>
      after ([EvTimer (timeout opts); ev]
             ++ (if (i <? maxRetries opts - 1)%nat then [EvSleep (backoff i)] else []))
            again
  end.
Proof.
  cbn [retry_loop].
  generalize (retry_loop opts (attempt ev f) n (S i)). intros again.
  unfold bind at 1. unfold try_catch. unfold bind at 1.
  unfold race, attempt. unfold bind, emit, await. cbn [after app].
  destruct (f w) as [[v | e |] w']; cbn [after app ret].
  - destruct (truthy v); [reflexivity |].
    rewrite ?after_after. reflexivity.
  - unfold bind. destruct (i <? maxRetries opts - 1)%nat; cbn [emit ret after app];
      rewrite ?after_after; reflexivity.
  - unfold bind. destruct (i <? maxRetries opts - 1)%nat; cbn [emit ret after app];
      rewrite ?after_after; reflexivity.
Qed.

Lemma retry_loop_done opts (solveFn : M (option string)) i s w :
  retry_loop opts solveFn 0 i s w = mkOut (World:=World) (Normal None) s w [].
Proof. reflexivity. Qed.

(** The loop leaves the solver alone and fulfils with [null] or with a
    truthy solution. *)
Lemma retry_loop_result opts ev (f : Hook) n : forall i s w,
  let o := retry_loop opts (attempt ev f) n i s w in
  self o = s /\
  exists r, res o = Normal r /\ (r = None \/ truthy r = true).
Proof.
  induction n as [| n IH]; intros i s w.
  - simpl. split; [reflexivity |]. exists None. auto.
  - cbv zeta. rewrite retry_loop_round.
    destruct (f w) as [c w']. specialize (IH (S i) s w').
    cbv zeta in IH. destruct IH as [IHs IHr].
    destruct c as [v | e |]; [destruct (truthy v) eqn:Hv |..];
      rewrite ?self_after, ?res_after; simpl; eauto.
Qed.

Lemma strategy_calls_app (a b : list (@Event Worker)) :
  strategy_calls (a ++ b) = (strategy_calls a + strategy_calls b)%nat.
Proof. unfold strategy_calls. rewrite List.filter_app, List.length_app. reflexivity. Qed.

Lemma sleeps_app (a b : list (@Event Worker)) :
  sleeps (a ++ b) = sleeps a ++ sleeps b.
Proof. unfold sleeps. apply omap_app. Qed.

Lemma outcome_at_0 (f : Hook) w : outcome_at f 0 w = fst (f w).
Proof. reflexivity. Qed.

Lemma outcome_at_S (f : Hook) j w :
  outcome_at f (S j) w = outcome_at f j (snd (f w)).
Proof. reflexivity. Qed.

Lemma strategy_calls_round opts svc k t ua i c :
  strategy_calls (round_events (Worker:=Worker) opts (EvStrategy svc k t ua) i c) = 1%nat.
Proof.
  unfold round_events. rewrite strategy_calls_app.
  destruct (caught c && (i <? maxRetries opts - 1)%nat); reflexivity.
Qed.

(** A round that is not accepted is followed by the rest of the loop. *)
Lemma retry_loop_next opts ev (f : Hook) n i s w :
  accepted (fst (f w)) = false ->
  retry_loop opts (attempt ev f) (S n) i s w =
  after (round_events opts ev i (fst (f w)))
        (retry_loop opts (attempt ev f) n (S i) s (snd (f w))).
Proof.
  intros Hacc. rewrite retry_loop_round. unfold round_events.
  destruct (f w) as [c w']. simpl in Hacc |- *.
  destruct c as [v | e |]; simpl in Hacc |- *; [rewrite Hacc |..]; reflexivity.
Qed.

(** A round that is accepted ends the loop. *)
Lemma retry_loop_stop opts ev (f : Hook) n i s w :
  accepted (fst (f w)) = true ->
  retry_loop opts (attempt ev f) (S n) i s w =
  mkOut (fst (f w)) s (snd (f w)) [EvTimer (timeout opts); ev].
Proof.
  intros Hacc. rewrite retry_loop_round.
  destruct (f w) as [c w']. simpl in Hacc |- *.
  destruct c as [v | e |]; simpl in Hacc; try discriminate.
  rewrite Hacc. reflexivity.
Qed.

(** The hook is called once per round at most. *)
Lemma retry_loop_calls_le opts svc k t ua (f : Hook) n : forall i s w,
  (strategy_calls (events (retry_loop opts (attempt (EvStrategy svc k t ua) f) n i s w))
   <= n)%nat.
Proof.
  induction n as [| n IH]; intros i s w.
  - simpl. unfold strategy_calls. simpl. lia.
  - destruct (accepted (fst (f w))) eqn:Hacc.
    + rewrite retry_loop_stop by assumption. unfold strategy_calls. simpl. lia.
    + rewrite retry_loop_next by assumption.
      rewrite events_after, strategy_calls_app, strategy_calls_round.
      specialize (IH (S i) s (snd (f w))). lia.
Qed.

(** The first accepted attempt ends the loop: its value is returned, the
    hook has been called once per attempt so far, and the trace ends with
    that call. *)
Lemma retry_loop_first_accepted opts svc k t ua (f : Hook) n : forall j i s w,
  (j < n)%nat ->
  (forall j', (j' < j)%nat -> accepted (outcome_at f j' w) = false) ->
  accepted (outcome_at f j w) = true ->
  let ev := EvStrategy svc k t ua in
  let o := retry_loop opts (attempt ev f) n i s w in
  res o = outcome_at f j w /\
  strategy_calls (events o) = S j /\
  world o = world_before f (S j) w /\
  exists before, events o = before ++ [EvTimer (timeout opts); ev].
Proof.
  induction n as [| n IH]; intros j i s w Hj Hbefore Hacc; [lia |].
  cbv zeta. destruct j as [| j].
  - rewrite outcome_at_0 in Hacc. rewrite retry_loop_stop by assumption.
    simpl. repeat split; try reflexivity. exists []. reflexivity.
  - pose proof (Hbefore 0%nat ltac:(lia)) as H0. rewrite outcome_at_0 in H0.
    rewrite retry_loop_next by assumption.
    assert (Hb' : forall j', (j' < j)%nat ->
                   accepted (outcome_at f j' (snd (f w))) = false).
    { intros j' Hj'. rewrite <- outcome_at_S. apply Hbefore. lia. }
    rewrite outcome_at_S in Hacc |- *.
    destruct (IH j (S i) s (snd (f w)) ltac:(lia) Hb' Hacc) as (Hr & Hc & Hw & before & He).
    rewrite res_after, world_after, events_after, strategy_calls_app, strategy_calls_round.
    repeat split; try assumption; try lia.
    exists (round_events opts (EvStrategy svc k t ua) i (fst (f w)) ++ before).
    rewrite He, app_assoc. reflexivity.
Qed.

(** When no attempt is accepted the loop runs all its rounds and fulfils
    with [null]: nothing is thrown. *)
Lemma retry_loop_none_accepted opts svc k t ua (f : Hook) n : forall i s w,
  (forall j, (j < n)%nat -> accepted (outcome_at f j w) = false) ->
  let o := retry_loop opts (attempt (EvStrategy svc k t ua) f) n i s w in
  res o = Normal None /\
  strategy_calls (events o) = n /\
  world o = world_before f n w.
Proof.
  induction n as [| n IH]; intros i s w Hnone.
  - simpl. auto.
  - cbv zeta.
    pose proof (Hnone 0%nat ltac:(lia)) as H0. rewrite outcome_at_0 in H0.
    rewrite retry_loop_next by assumption.
    assert (Hn' : forall j, (j < n)%nat ->
                   accepted (outcome_at f j (snd (f w))) = false).
    { intros j Hj. rewrite <- outcome_at_S. apply Hnone. lia. }
    destruct (IH (S i) s (snd (f w)) Hn') as (Hr & Hc & Hw).
    rewrite res_after, world_after, events_after, strategy_calls_app, strategy_calls_round.
    simpl world_before. repeat split; try assumption; lia.
Qed.

Lemma caught_not_accepted c : caught c = true -> accepted c = false.
Proof. destruct c; simpl; congruence. Qed.

(** When every attempt is caught the trace is [caught_trace]. *)
Lemma retry_loop_all_caught opts ev (f : Hook) n : forall i s w,
  (forall j, (j < n)%nat -> caught (outcome_at f j w) = true) ->
  events (retry_loop opts (attempt ev f) n i s w) = caught_trace opts ev n i.
Proof.
  induction n as [| n IH]; intros i s w Hall.
  - reflexivity.
  - pose proof (Hall 0%nat ltac:(lia)) as H0. rewrite outcome_at_0 in H0.
    rewrite retry_loop_next by (apply caught_not_accepted; assumption).
    assert (Hn' : forall j, (j < n)%nat ->
                   caught (outcome_at f j (snd (f w))) = true).
    { intros j Hj. rewrite <- outcome_at_S. apply Hall. lia. }
    rewrite events_after, (IH (S i) s (snd (f w)) Hn').
    unfold round_events. rewrite H0. cbn [caught_trace andb].
    rewrite <- app_assoc. reflexivity.
Qed.

(** An attempt that fulfils without a solution is followed by no sleep. *)
Lemma retry_loop_fulfilled_no_sleep opts svc k t ua (f : Hook) n : forall i s w,
  (forall j, (j < n)%nat -> caught (outcome_at f j w) = false) ->
  sleeps (events (retry_loop opts (attempt (EvStrategy svc k t ua) f) n i s w)) = [].
Proof.
  induction n as [| n IH]; intros i s w Hall.
  - reflexivity.
  - pose proof (Hall 0%nat ltac:(lia)) as H0. rewrite outcome_at_0 in H0.
    destruct (accepted (fst (f w))) eqn:Hacc.
    + rewrite retry_loop_stop by assumption. reflexivity.
    + rewrite retry_loop_next by assumption.
      assert (Hn' : forall j, (j < n)%nat ->
                     caught (outcome_at f j (snd (f w))) = false).
      { intros j Hj. rewrite <- outcome_at_S. apply Hall. lia. }
      rewrite events_after, sleeps_app, (IH (S i) s (snd (f w)) Hn').
      unfold round_events. rewrite H0. reflexivity.
Qed.

(** The sleeps of [caught_trace]: one after every round but the last. *)
Lemma sleeps_caught_trace opts svc k t ua n : forall i,
  (i + n = maxRetries opts)%nat ->
  sleeps (caught_trace (Worker:=Worker) opts (EvStrategy svc k t ua) n i)
  = List.map backoff (List.seq i (n - 1)).
Proof.
  induction n as [| n IH]; intros i Hin.
  - reflexivity.
  - cbn [caught_trace]. rewrite !sleeps_app.
    destruct n as [| n].
    + replace (i <? maxRetries opts - 1)%nat with false
        by (symmetry; apply Nat.ltb_ge; lia).
      reflexivity.
    + replace (i <? maxRetries opts - 1)%nat with true
        by (symmetry; apply Nat.ltb_lt; lia).
      rewrite IH by lia.
      replace (S (S n) - 1)%nat with (S (S n - 1)) by lia. reflexivity.
Qed.

Lemma strategy_calls_caught_trace opts svc k t ua n : forall i,
  strategy_calls (caught_trace (Worker:=Worker) opts (EvStrategy svc k t ua) n i) = n.
Proof.
  induction n as [| n IH]; intros i.
  - reflexivity.
  - cbn [caught_trace]. rewrite !strategy_calls_app, IH.
    destruct (i <? maxRetries opts - 1)%nat; reflexivity.
Qed.

(** ** [solveWithRetry] is the loop from index 0 with [maxRetries] rounds. *)
Lemma solveWithRetry_loop (solveFn : M (option string)) s w :
  solveWithRetry solveFn s w =
  retry_loop (World:=World) (options s) solveFn (maxRetries (options s)) 0 s w.
Proof. unfold solveWithRetry, bind, get. apply after_nil. Qed.

(** ** The back-off *)

Lemma backoff_values :
  List.map backoff (List.seq 0 6) = [1000; 2000; 4000; 8000; 10000; 10000]%Z.
Proof. reflexivity. Qed.

Lemma backoff_capped i : (4 <= i)%nat -> backoff i = 10000%Z.
Proof.
  intros Hi. unfold backoff.
  assert (2 ^ 4 <= 2 ^ Z.of_nat i)%Z by (apply Z.pow_le_mono_r; lia).
  lia.
Qed.

(** ** The dispatch *)

Lemma attempt_loop_result ev (f : Hook) s w :
  let o := solveWithRetry (attempt ev f) s w in
  self o = s /\ exists r, res o = Normal r /\ (r = None \/ truthy r = true).
Proof. cbv zeta. rewrite solveWithRetry_loop. apply retry_loop_result. Qed.

Lemma dispatch_result d ua s w :
  let o := dispatch_ d ua s w in
  self o = s /\ exists r, res o = Normal r /\ (r = None \/ truthy r = true).
Proof.
  unfold dispatch.
  destruct (String.eqb (captcha_service d) "hcaptcha");
    [| destruct (String.eqb (captcha_service d) "recaptcha")].
  - apply attempt_loop_result.
  - apply attempt_loop_result.
  - simpl. split; [reflexivity |]. exists None. auto.
Qed.

Lemma dispatch_unknown d ua s w :
  captcha_service d <> "hcaptcha" -> captcha_service d <> "recaptcha" ->
  dispatch_ d ua s w = mkOut (Normal None) s w [].
Proof.
  intros Hh Hr. unfold dispatch.
  apply String.eqb_neq in Hh, Hr. rewrite Hh, Hr. reflexivity.
Qed.

(** ** The outcome of [solve], path by path *)

Lemma record_outcome_run key solution s w :
  record_outcome key solution s w = mkOut (Normal tt) (recorded key solution s) w [].
Proof.
  unfold record_outcome, recorded, bind, get.
  destruct solution as [v |]; [| reflexivity].
  destruct (truthy (Some v)); [| reflexivity].
  destruct (enableCaching (options s)); reflexivity.
Qed.

Lemma solve_try_null ua s w :
  solve_try createWorker _advancedHCaptchaSolve _advancedRecaptchaSolve None ua s w
  = mkOut (Throw TypeError) s w [].
Proof. reflexivity. Qed.

Lemma solve_try_hit d ua s w v :
  enableCaching (options s) = true ->
  cache s !! cacheKey d = Some v ->
  solve_try createWorker _advancedHCaptchaSolve _advancedRecaptchaSolve (Some d) ua s w
  = mkOut (Normal (Some v)) (incr_cached s) w [].
Proof.
  intros He Hc.
  unfold solve_try, getCacheKey. unfold bind at 1. cbn [ret after app].
  unfold bind at 1. cbn [get after app].
  rewrite He, Hc. rewrite bool_decide_eq_true_2 by eauto. cbn [andb].
  unfold bind, modify, get, ret. cbn [after app incr_cached set_stats cache].
  rewrite Hc. reflexivity.
Qed.

Lemma solve_try_miss d ua s w :
  cache_hit s d = false ->
  let oi := initialize createWorker s w in
  let od := dispatch_ d ua (self oi) (world oi) in
  exists r,
    res od = Normal r /\ (r = None \/ truthy r = true) /\
    solve_try createWorker _advancedHCaptchaSolve _advancedRecaptchaSolve (Some d) ua s w
    = mkOut (Normal r) (recorded (cacheKey d) r (self oi)) (world od)
            (events oi ++ events od).
Proof.
  intros Hmiss oi od.
  destruct (dispatch_result d ua (self oi) (world oi)) as (Hself & r & Hr & Htruthy).
  fold od in Hself, Hr.
  destruct (initialize_frame s w) as (Hi & _). fold oi in Hi.
  exists r. split; [assumption |]. split; [assumption |].
  unfold cache_hit in Hmiss.
  unfold solve_try, getCacheKey. unfold bind at 1. cbn [ret after app].
  unfold bind at 1. cbn [get after app]. rewrite Hmiss.
  unfold bind at 1. fold oi.
  destruct oi as [ri si wi ei]. simpl in Hi, Hself, Hr, od |- *. subst ri.
  unfold destructure. unfold bind at 1. cbn [ret after app].
  unfold bind at 1. fold od.
  destruct od as [rd sd wd ed]. simpl in Hself, Hr |- *. subst rd sd.
  unfold bind at 1. rewrite record_outcome_run. cbn [after app].
  unfold bind, ret. cbn [after app]. rewrite !app_nil_r. reflexivity.
Qed.

(** [solve] counts the call, runs the [try] block, and turns a rejection
    into [null] and one more failure. *)
Lemma solve_catch cd ua s w :
  let body :=
    solve_try createWorker _advancedHCaptchaSolve _advancedRecaptchaSolve
              cd ua (incr_total s) w in
  solve_ cd ua s w =
  match res body with
  | Throw _ => mkOut (Normal None) (incr_failed (self body)) (world body) (events body)
  | c => mkOut c (self body) (world body) (events body)
  end.
Proof.
  cbv zeta. unfold solve. unfold bind at 1. unfold modify at 1. unfold try_catch.
  destruct (solve_try _ _ _ cd ua (incr_total s) w) as [[r | e |] sb wb eb];
    cbn [after app res self world events]; try reflexivity.
  unfold bind, modify, ret. cbn [after app]. rewrite app_nil_r. reflexivity.
Qed.

Lemma solve_null ua s w :
  solve_ None ua s w = mkOut (Normal None) (incr_failed (incr_total s)) w [].
Proof. reflexivity. Qed.

Lemma solve_hit d ua s w v :
  enableCaching (options s) = true ->
  cache s !! cacheKey d = Some v ->
  solve_ (Some d) ua s w = mkOut (Normal (Some v)) (incr_cached (incr_total s)) w [].
Proof.
  intros He Hc. rewrite solve_catch. cbv zeta.
  rewrite (solve_try_hit d ua (incr_total s) w v) by assumption. reflexivity.
Qed.

Lemma solve_miss d ua s w :
  cache_hit s d = false ->
  let oi := initialize createWorker (incr_total s) w in
  let od := dispatch_ d ua (self oi) (world oi) in
  exists r,
    res od = Normal r /\ (r = None \/ truthy r = true) /\
    solve_ (Some d) ua s w =
    mkOut (Normal r) (recorded (cacheKey d) r (self oi)) (world od)
          (events oi ++ events od).
Proof.
  intros Hmiss oi od.
  destruct (solve_try_miss d ua (incr_total s) w Hmiss) as (r & Hr & Ht & Heq).
  exists r. split; [assumption |]. split; [assumption |].
  rewrite solve_catch. cbv zeta. rewrite Heq. reflexivity.
Qed.

(** A hit needs an entry; a miss is everything else. *)
Lemma cache_hit_true s d :
  cache_hit s d = true ->
  enableCaching (options s) = true /\ exists v, cache s !! cacheKey d = Some v.
Proof.
  unfold cache_hit. intros H. apply andb_true_iff in H as [He Hc].
  apply bool_decide_eq_true_1 in Hc. destruct Hc as [v Hv]. eauto.
Qed.

Lemma cache_hit_false s d :
  cache_hit s d = false <->
  enableCaching (options s) = false \/ cache s !! cacheKey d = None.
Proof.
  unfold cache_hit. rewrite andb_false_iff.
  split; intros [H | H]; auto; right.
  - apply bool_decide_eq_false_1 in H.
    destruct (cache s !! cacheKey d) eqn:E; [| reflexivity].
    exfalso. apply H. eauto.
  - apply bool_decide_eq_false_2. rewrite H. intros [v Hv]. discriminate.
Qed.

(** The counters after the two [if (solution ...)] statements. *)
Lemma stats_recorded key r s :
  stats (recorded key r s) =
  if truthy r
  then mkStats (total (stats s)) (N.succ (successful (stats s))) (failed (stats s))
               (cached (stats s))
  else mkStats (total (stats s)) (successful (stats s)) (N.succ (failed (stats s)))
               (cached (stats s)).
Proof.
  unfold recorded. destruct r as [v |]; [| reflexivity].
  destruct (truthy (Some v)); [| reflexivity].
  destruct (enableCaching (options s)); reflexivity.
Qed.

(** ** The invariant *)

Lemma initialize_engine s w :
  let o := initialize createWorker s w in
  (initialized s = true -> is_Some (worker s)) ->
  initialized (self o) = true -> is_Some (worker (self o)).
Proof.
  cbv zeta. intros Hs.
  destruct (initialized s) eqn:Hi.
  - rewrite initialize_done by assumption. simpl. intros _. auto.
  - rewrite initialize_start by assumption.
    destruct (createWorker w) as [[e | wk] w']; simpl; intros H; eauto.
Qed.

Lemma truthy_nonempty v : truthy (Some v) = true -> v <> "".
Proof.
  simpl. intros H Hv. subst v. discriminate.
Qed.

(** Only a dispatch to one of the two solving methods yields a solution. *)
Lemma dispatch_truthy_known d ua s w r :
  res (dispatch_ d ua s w) = Normal r -> truthy r = true ->
  known_key (cacheKey d).
Proof.
  intros Hr Ht. unfold known_key, cacheKey.
  destruct (String.eqb (captcha_service d) "hcaptcha") eqn:Hh.
  - apply String.eqb_eq in Hh. rewrite Hh. exists (captcha_sitekey d). left. reflexivity.
  - destruct (String.eqb (captcha_service d) "recaptcha") eqn:Hc.
    + apply String.eqb_eq in Hc. rewrite Hc. exists (captcha_sitekey d). right. reflexivity.
    + apply String.eqb_neq in Hh, Hc.
      rewrite dispatch_unknown in Hr by assumption. simpl in Hr.
      injection Hr as <-. discriminate.
Qed.

Lemma invariant_new o : invariant (Worker:=Worker) o (new o).
Proof.
  unfold invariant. simpl. repeat split; try discriminate.
  all: rewrite lookup_empty in H; discriminate.
Qed.

Lemma invariant_initialize o s w :
  invariant o s -> invariant o (self (initialize createWorker s w)).
Proof.
  intros (Ho & He & Hb & Hc).
  destruct (initialize_frame s w) as (_ & Ho' & Hc' & Hs' & _).
  unfold invariant. rewrite Ho', Hc', Hs'.
  repeat split; try assumption; try (apply Hc in H; tauto).
  apply initialize_engine. assumption.
Qed.


Lemma recorded_frame key r s :
  options (recorded key r s) = options s /\
  worker (recorded key r s) = worker s /\
  initialized (recorded key r s) = initialized s.
Proof.
  unfold recorded. destruct r as [v |]; [| auto].
  destruct (truthy (Some v)); [| auto].
  destruct (enableCaching (options s)); auto.
Qed.

Lemma cache_recorded key r s :
  cache (recorded key r s) =
  match r with
  | Some v =>
      if truthy r && enableCaching (options s) then <[key := v]> (cache s) else cache s
  | None => cache s
  end.
Proof.
  unfold recorded. destruct r as [v |]; [| reflexivity].
  destruct (truthy (Some v)); [| reflexivity].
  destruct (enableCaching (options s)); reflexivity.
Qed.

Lemma invariant_solve o cd ua s w :
  invariant o s -> invariant o (self (solve_ cd ua s w)).
Proof.
  intros (Ho & He & Hb & Hc). unfold balanced in Hb.
  destruct cd as [d |].
  2:{ rewrite solve_null. unfold invariant, balanced. simpl.
      repeat split; try assumption; try (apply Hc in H; tauto). lia. }
  destruct (cache_hit s d) eqn:Hhit.
  - apply cache_hit_true in Hhit as (Hen & v & Hv).
    rewrite (solve_hit d ua s w v) by assumption.
    unfold invariant, balanced. simpl.
    repeat split; try assumption; try (apply Hc in H; tauto). lia.
  - destruct (solve_miss d ua s w Hhit) as (r & Hr & Ht & Heq).
    rewrite Heq. simpl self.
    destruct (initialize_frame (incr_total s) w) as (_ & Ho' & Hc' & Hs' & _).
    pose proof (initialize_engine (incr_total s) w He) as He'. cbv zeta in He'.
    set (oi := initialize createWorker (incr_total s) w) in *.
    destruct (recorded_frame (cacheKey d) r (self oi)) as (Ro & Rw & Ri).
    unfold invariant. rewrite Ro, Rw, Ri, stats_recorded, cache_recorded, Ho', Hc', Hs'.
    split; [assumption |]. split; [assumption |]. split.
    + unfold balanced. destruct (truthy r); simpl; lia.
    + intros key v. destruct r as [v' |]; [| apply Hc].
      destruct (truthy (Some v') && enableCaching _) eqn:Hw; [| apply Hc].
      apply andb_true_iff in Hw as [Hv' _].
      rewrite lookup_insert. destruct (decide (cacheKey d = key)) as [<- | Hne]; [| apply Hc].
      intros [= <-]. split.
      * eapply dispatch_truthy_known; eassumption.
      * apply truthy_nonempty. assumption.
Qed.

Lemma invariant_clearCache o s w :
  invariant o s -> invariant o (self (clearCache (World:=World) s w)).
Proof.
  intros (Ho & He & Hb & Hc). unfold invariant. simpl.
  repeat split; try assumption; rewrite lookup_empty in H; discriminate.
Qed.

Lemma invariant_resetStats o s w :
  invariant o s -> invariant o (self (resetStats (World:=World) s w)).
Proof.
  intros (Ho & He & Hb & Hc). unfold invariant. simpl.
  repeat split; try assumption; try (apply Hc in H; tauto).
Qed.

(** What [cleanup] does, by cases on the worker. *)
Lemma cleanup_run s w :
  cleanup terminate s w =
  match worker s with
  | Some wk =>
      mkOut (Normal tt)
            (set_cache ∅ (set_initialized false (set_worker None s)))
            (terminate wk w) [EvTerminate wk]
  | None => mkOut (Normal tt) (set_cache ∅ s) w []
  end.
Proof.
  unfold cleanup, clearCache, bind, get, modify, emit, await, ret. simpl.
  destruct (worker s); reflexivity.
Qed.

Lemma invariant_cleanup o s w :
  invariant o s -> invariant o (self (cleanup terminate s w)).
Proof.
  intros (Ho & He & Hb & Hc). rewrite cleanup_run. unfold invariant.
  destruct (worker s) eqn:Hw; simpl;
    repeat split; try assumption; try discriminate;
    try (rewrite lookup_empty in H; discriminate).
  rewrite Hw. assumption.
Qed.

Lemma reachable_invariant o s : reachable_ o s -> invariant o s.
Proof.
  induction 1.
  - apply invariant_new.
  - apply invariant_solve. assumption.
  - apply invariant_initialize. assumption.
  - apply invariant_clearCache. assumption.
  - apply invariant_resetStats. assumption.
  - apply invariant_cleanup. assumption.
Qed.

(** ** Cache hits *)

(** The key only reads the service and the site key, not the request token. *)
Lemma cacheKey_ignores_rqtoken d d' :
  captcha_service d' = captcha_service d ->
  captcha_sitekey d' = captcha_sitekey d ->
  cacheKey d' = cacheKey d.
Proof. unfold cacheKey. intros -> ->. reflexivity. Qed.

(** C1 (as the code has it). With caching enabled and an entry stored for
    the service and site key of the request, whatever its request token,
    [solve] fulfils with the stored solution; no hook is called, no timer or
    sleep is started and the engine is not touched (the trace is empty, the
    world, the worker, the flag and the cache are unchanged). The cache-hit
    counter and the total go up by one; the successful and the failed
    counters keep their values. *)
Theorem solve_cache_hit d d' ua s w v :
  enableCaching (options s) = true ->
  cache s !! cacheKey d = Some v ->
  captcha_service d' = captcha_service d ->
  captcha_sitekey d' = captcha_sitekey d ->
  let o := solve createWorker _advancedHCaptchaSolve _advancedRecaptchaSolve
                 (Some d') ua s w in
  res o = Normal (Some v) /\
  events o = [] /\ world o = w /\
  worker (self o) = worker s /\ initialized (self o) = initialized s /\
  cache (self o) = cache s /\
  cached (stats (self o)) = (cached (stats s) + 1)%N /\
  total (stats (self o)) = (total (stats s) + 1)%N /\
  successful (stats (self o)) = successful (stats s) /\
  failed (stats (self o)) = failed (stats s).
Proof.
  intros He Hc Hsvc Hkey. cbv zeta.
  rewrite <- (cacheKey_ignores_rqtoken d d' Hsvc Hkey) in Hc.
  rewrite (solve_hit d' ua s w v He Hc). simpl.
  repeat split; lia.
Qed.

(** ** The total counter *)

(** C2. Every call of [solve] adds exactly one to the total counter: on a
    cache hit, on a solution, on a failure, for an unknown service and when
    the [try] block throws. *)
Theorem solve_counts_every_call cd ua s w :
  total (stats (self (solve createWorker _advancedHCaptchaSolve _advancedRecaptchaSolve
                      cd ua s w))) = (total (stats s) + 1)%N.
Proof.
  destruct cd as [d |].
  - destruct (cache_hit s d) eqn:Hhit.
    + apply cache_hit_true in Hhit as (Hen & v & Hv).
      rewrite (solve_hit d ua s w v) by assumption. simpl. lia.
    + destruct (solve_miss d ua s w Hhit) as (r & _ & _ & Heq).
      rewrite Heq. simpl self. rewrite stats_recorded.
      destruct (initialize_frame (incr_total s) w) as (_ & _ & _ & Hs & _).
      rewrite Hs. destruct (truthy r); simpl; lia.
  - rewrite solve_null. simpl. lia.
Qed.

(** ** No exception leaves [solve] *)

(** The [try] block only throws on a [captchaData] that is [null] or
    [undefined]. *)
Lemma solve_try_throws cd ua s w e :
  res (solve_try createWorker _advancedHCaptchaSolve _advancedRecaptchaSolve
                 cd ua s w) = Throw e ->
  cd = None /\
  solve_try createWorker _advancedHCaptchaSolve _advancedRecaptchaSolve cd ua s w
  = mkOut (Throw TypeError) s w [].
Proof.
  destruct cd as [d |]; [| intros _; split; reflexivity].
  destruct (cache_hit s d) eqn:Hhit.
  - apply cache_hit_true in Hhit as (Hen & v & Hv).
    rewrite (solve_try_hit d ua s w v) by assumption. discriminate.
  - destruct (solve_try_miss d ua s w Hhit) as (r & _ & _ & Heq).
    rewrite Heq. discriminate.
Qed.

(** C3. Whatever the request, the hooks and the engine do, the promise
    of [solve] is fulfilled, never rejected and never left pending; its
    value is a solution string or [null]. When the [try] block throws,
    the value is [null]; and whenever the value is [null], for any reason
    (a throw in the block, a hook that throws, times out or gives nothing
    on every attempt, an unknown service), the failed counter has gone up
    by one and the successful and cached counters are unchanged. *)
Theorem solve_never_throws cd ua s w :
  let o := solve createWorker _advancedHCaptchaSolve _advancedRecaptchaSolve
                 cd ua s w in
  (exists r : option string, res o = Normal r) /\
  (forall e,
     res (solve_try createWorker _advancedHCaptchaSolve _advancedRecaptchaSolve
                    cd ua (incr_total s) w) = Throw e ->
     res o = Normal None) /\
  (res o = Normal None ->
   failed (stats (self o)) = (failed (stats s) + 1)%N /\
   successful (stats (self o)) = successful (stats s) /\
   cached (stats (self o)) = cached (stats s)).
Proof.
  cbv zeta. destruct cd as [d |].
  2:{ rewrite solve_null. simpl. repeat split; eauto; lia. }
  destruct (cache_hit s d) eqn:Hhit.
  - pose proof (cache_hit_true s d Hhit) as (Hen & v & Hv).
    rewrite (solve_hit d ua s w v) by assumption. simpl.
    split; [eauto |]. split; [| discriminate].
    intros e He. apply solve_try_throws in He as [[=] _].
  - destruct (solve_miss d ua s w Hhit) as (r & _ & _ & Heq).
    rewrite Heq. simpl.
    split; [eauto |]. split.
    + intros e He. apply solve_try_throws in He as [[=] _].
    + intros [= ->]. rewrite stats_recorded. simpl.
      destruct (initialize_frame (incr_total s) w) as (_ & _ & _ & Hs & _).
      rewrite Hs. simpl. repeat split; lia.
Qed.

(** ** Unknown services *)

Lemma colon_free_prefix a : forall b x y,
  colon_free a = true -> colon_free b = true ->
  a +:+ ":" +:+ x = b +:+ ":" +:+ y -> a = b.
Proof.
  induction a as [| c a IH]; intros b x y Ha Hb Heq.
  - destruct b as [| c' b]; [reflexivity |].
    simpl in Hb, Heq. injection Heq as Hc _. subst c'. discriminate.
  - destruct b as [| c' b].
    + simpl in Ha, Heq. injection Heq as Hc _. subst c. discriminate.
    + simpl in Ha, Hb, Heq. injection Heq as Hc Hrest. subst c'.
      apply andb_true_iff in Ha as [_ Ha]. apply andb_true_iff in Hb as [_ Hb].
      f_equal. eapply IH; eassumption.
Qed.

(** In a reachable solver no entry is stored for a service without a colon
    that is not one of the two known ones. *)
Lemma reachable_unknown_miss o s d :
  reachable_ o s ->
  captcha_service d <> "hcaptcha" -> captcha_service d <> "recaptcha" ->
  colon_free (captcha_service d) = true ->
  cache_hit s d = false.
Proof.
  intros Hreach Hh Hr Hcf. apply reachable_invariant in Hreach as (_ & _ & _ & Hc).
  apply cache_hit_false. right.
  destruct (cache s !! cacheKey d) as [v |] eqn:E; [| reflexivity].
  exfalso. apply Hc in E as [[sk [E | E]] _]; unfold cacheKey in E.
  - apply Hh. eapply (colon_free_prefix _ "hcaptcha"); [assumption | reflexivity | exact E].
  - apply Hr. eapply (colon_free_prefix _ "recaptcha"); [assumption | reflexivity | exact E].
Qed.

(** C6 (as the code has it). For a request whose service is neither
    'hcaptcha' nor 'recaptcha' and which does not hit the cache, [solve]
    fulfils with [null]; no hook is called, no timer and no sleep is started
    (the only possible event is the start of the engine), and the total and
    the failed counters go up by one each while the other two keep their
    values. *)
Theorem solve_unknown_service d ua s w :
  captcha_service d <> "hcaptcha" -> captcha_service d <> "recaptcha" ->
  cache_hit s d = false ->
  let o := solve createWorker _advancedHCaptchaSolve _advancedRecaptchaSolve
                 (Some d) ua s w in
  res o = Normal None /\
  events o = (if initialized s then [] else [EvCreateWorker]) /\
  strategy_calls (events o) = 0%nat /\ sleeps (events o) = [] /\
  total (stats (self o)) = (total (stats s) + 1)%N /\
  failed (stats (self o)) = (failed (stats s) + 1)%N /\
  successful (stats (self o)) = successful (stats s) /\
  cached (stats (self o)) = cached (stats s) /\
  cache (self o) = cache s.
Proof.
  intros Hh Hr Hmiss. cbv zeta.
  destruct (solve_miss d ua s w Hmiss) as (r & Hres & _ & Heq).
  rewrite dispatch_unknown in Hres, Heq by assumption.
  simpl in Hres. injection Hres as <-.
  rewrite Heq. simpl.
  destruct (initialize_frame (incr_total s) w) as (_ & _ & Hc & Hs & He).
  rewrite Hs, Hc, He, app_nil_r. simpl.
  repeat split; try lia; destruct (initialized s); reflexivity.
Qed.

(** ** Clearing *)

(** C8. [clearCache] empties the cache and keeps the four counters;
    [resetStats] sets the four counters to zero and keeps the cache.
    Neither touches anything else, and neither produces an event. *)
Theorem clearCache_resetStats_independent s w :
  (let o := clearCache s w in
   res o = Normal tt /\ cache (self o) = ∅ /\ stats (self o) = stats s /\
   options (self o) = options s /\ worker (self o) = worker s /\
   initialized (self o) = initialized s /\ world o = w /\ events o = []) /\
  (let o := resetStats s w in
   res o = Normal tt /\ stats (self o) = mkStats 0 0 0 0 /\ cache (self o) = cache s /\
   options (self o) = options s /\ worker (self o) = worker s /\
   initialized (self o) = initialized s /\ world o = w /\ events o = []).
Proof. simpl. repeat split; reflexivity. Qed.

(** ** [cleanup] *)

(** A solve that misses the cache on a solver that is not initialized
    starts the engine first, and keeps the worker when the start succeeds. *)
Lemma solve_starts_engine d ua s w :
  initialized s = false -> cache_hit s d = false ->
  let o := solve_ (Some d) ua s w in
  (exists rest, events o = EvCreateWorker :: rest) /\
  (forall wk w', createWorker w = (inr wk, w') ->
     initialized (self o) = true /\ worker (self o) = Some wk).
Proof.
  intros Hi Hmiss. cbv zeta.
  destruct (solve_miss d ua s w Hmiss) as (r & _ & _ & Heq).
  rewrite Heq. simpl events. simpl self.
  destruct (recorded_frame (cacheKey d) r
              (self (initialize createWorker (incr_total s) w))) as (_ & Rw & Ri).
  rewrite Rw, Ri.
  rewrite (initialize_start (incr_total s) w Hi).
  destruct (createWorker w) as [[e | wk0] w0]; simpl; split; eauto.
  - intros wk w' [=].
  - intros wk w' [= -> ->]. auto.
Qed.

(** C9. On a reachable solver [cleanup] terminates the worker when there
    is one (and calls nothing otherwise), leaves the worker field empty, the
    cache empty and the initialized flag false, and keeps the four counters
    and the options. A later [solve] on a request object then starts the
    engine again before anything else, and is initialized with the new
    worker when the start succeeds. *)
Theorem cleanup_resets_engine_and_cache o s w :
  reachable createWorker terminate _advancedHCaptchaSolve _advancedRecaptchaSolve o s ->
  let c := cleanup terminate s w in
  res c = Normal tt /\
  events c = match worker s with Some wk => [EvTerminate wk] | None => [] end /\
  world c = match worker s with Some wk => terminate wk w | None => w end /\
  worker (self c) = None /\
  initialized (self c) = false /\
  cache (self c) = ∅ /\
  stats (self c) = stats s /\
  options (self c) = options s /\
  (forall d ua w',
     let o' := solve createWorker _advancedHCaptchaSolve _advancedRecaptchaSolve
                   (Some d) ua (self c) w' in
     (exists rest, events o' = EvCreateWorker :: rest) /\
     (forall wk w'', createWorker w' = (inr wk, w'') ->
        initialized (self o') = true /\ worker (self o') = Some wk)).
Proof.
  intros Hreach. apply reachable_invariant in Hreach as (_ & He & _ & _).
  cbv zeta.
  assert (Hflag : initialized (self (cleanup terminate s w)) = false).
  { rewrite cleanup_run. destruct (worker s) eqn:Hw; simpl; [reflexivity |].
    destruct (initialized s); [| reflexivity].
    destruct (He eq_refl) as [wk Hwk]. congruence. }
  assert (Hcache : cache (self (cleanup terminate s w)) = ∅).
  { rewrite cleanup_run. destruct (worker s); reflexivity. }
  split; [| split; [| split; [| split; [| split; [assumption | split; [assumption |]]]]]].
  1-4: rewrite cleanup_run; destruct (worker s) eqn:Hw; simpl; rewrite ?Hw; reflexivity.
  split; [| split].
  1-2: rewrite cleanup_run; destruct (worker s); reflexivity.
  intros d ua w'. apply solve_starts_engine; [assumption |].
  apply cache_hit_false. right. rewrite Hcache. apply lookup_empty.
Qed.

(** ** The balance of the counters *)

(** C10. In every reachable solver the total equals the sum of the
    successful, failed and cached counters. A [solve] that hits the cache
    adds one to the total and to the cached counter and leaves the other
    two; any other [solve] adds one to the total and to exactly one of the
    successful and failed counters, and leaves the cached counter. *)
Theorem stats_balanced o s :
  reachable createWorker terminate _advancedHCaptchaSolve _advancedRecaptchaSolve o s ->
  balanced (stats s) /\
  forall cd ua w,
    let st := stats s in
    let st' := stats (self (solve createWorker _advancedHCaptchaSolve _advancedRecaptchaSolve
                      cd ua s w)) in
    (forall d, cd = Some d -> cache_hit s d = true ->
       st' = mkStats (total st + 1) (successful st) (failed st) (cached st + 1)) /\
    ((forall d, cd = Some d -> cache_hit s d = false) ->
       st' = mkStats (total st + 1) (successful st + 1) (failed st) (cached st) \/
       st' = mkStats (total st + 1) (successful st) (failed st + 1) (cached st)).
Proof.
  intros Hreach. split.
  - apply reachable_invariant in Hreach. apply Hreach.
  - intros cd ua w. cbv zeta. split.
    + intros d -> Hhit. apply cache_hit_true in Hhit as (Hen & v & Hv).
      rewrite (solve_hit d ua s w v) by assumption. simpl.
      rewrite !N.add_1_r. reflexivity.
    + intros Hmiss. destruct cd as [d |].
      * destruct (solve_miss d ua s w (Hmiss d eq_refl)) as (r & _ & _ & Heq).
        rewrite Heq. simpl self. rewrite stats_recorded.
        destruct (initialize_frame (incr_total s) w) as (_ & _ & _ & Hs & _).
        rewrite Hs, !N.add_1_r. destruct (truthy r); simpl; auto.
      * rewrite solve_null. simpl. rewrite !N.add_1_r. auto.
Qed.

(** Whatever the hook does, every sleep of the loop is the back-off of a
    round that was caught and is not the last one. *)
Lemma retry_loop_sleeps opts svc k t ua (f : Hook) n : forall i s w,
  Forall (fun ms => exists j,
            (i <= j < i + n)%nat /\ (j < maxRetries opts - 1)%nat /\
            caught (outcome_at f (j - i) w) = true /\ ms = backoff j)
         (sleeps (events (retry_loop opts (attempt (EvStrategy svc k t ua) f) n i s w))).
Proof.
  induction n as [| n IH]; intros i s w.
  - constructor.
  - destruct (accepted (fst (f w))) eqn:Hacc.
    + rewrite retry_loop_stop by assumption. constructor.
    + rewrite retry_loop_next by assumption.
      rewrite events_after, sleeps_app. apply Forall_app. split.
      * unfold round_events. rewrite sleeps_app.
        destruct (caught (fst (f w))) eqn:Hc; [| constructor].
        destruct (i <? maxRetries opts - 1)%nat eqn:Hi; [| constructor].
        constructor; [| constructor].
        exists i. apply Nat.ltb_lt in Hi.
        replace (i - i)%nat with 0%nat by lia. rewrite outcome_at_0.
        repeat split; try assumption; lia.
      * eapply List.Forall_impl; [| apply (IH (S i) s (snd (f w)))].
        intros ms (j & Hj & Hlast & Hc & ->). exists j.
        replace (j - i)%nat with (S (j - S i)) by lia. rewrite outcome_at_S.
        repeat split; try assumption; lia.
Qed.

(** The two functions [solve] passes to [solveWithRetry] are attempts on
    the two hooks. *)
Lemma solveHCaptcha_attempt k t ua :
  solveHCaptcha (Worker:=Worker) _advancedHCaptchaSolve k t ua
  = attempt (EvStrategy HCaptcha k t ua) (_advancedHCaptchaSolve k t ua).
Proof. reflexivity. Qed.

Lemma solveRecaptcha_attempt k t ua :
  solveRecaptcha (Worker:=Worker) _advancedRecaptchaSolve k t ua
  = attempt (EvStrategy Recaptcha k t ua) (_advancedRecaptchaSolve k t ua).
Proof. reflexivity. Qed.


(** ** The retry budget *)

(** C4 (as the code has it). [solveWithRetry] calls the hook at most
    [maxRetries] times. The first attempt that fulfils with a truthy value
    (a non-empty string) ends the loop: that value is returned and the call
    that produced it is the last event, so the hook was called once per
    attempt up to it and no more. When none of the [maxRetries] attempts
    does, all of them are made and the promise is fulfilled with [null]:
    the last error is not thrown. The solver object is not changed. *)
Theorem solveWithRetry_attempts svc k t ua (f : Hook) s w :
  let ev := EvStrategy svc k t ua in
  let o := solveWithRetry (attempt ev f) s w in
  let n := maxRetries (options s) in
  self o = s /\
  (strategy_calls (events o) <= n)%nat /\
  (forall j, (j < n)%nat ->
     (forall j', (j' < j)%nat -> accepted (outcome_at f j' w) = false) ->
     accepted (outcome_at f j w) = true ->
     res o = outcome_at f j w /\
     strategy_calls (events o) = S j /\
     exists before, events o = before ++ [EvTimer (timeout (options s)); ev]) /\
  ((forall j, (j < n)%nat -> accepted (outcome_at f j w) = false) ->
   res o = Normal None /\ strategy_calls (events o) = n).
Proof.
  cbv zeta. rewrite solveWithRetry_loop.
  split; [apply retry_loop_result |].
  split; [apply retry_loop_calls_le |].
  split.
  - intros j Hj Hbefore Hacc.
    destruct (retry_loop_first_accepted (options s) svc k t ua f
                (maxRetries (options s)) j 0 s w Hj Hbefore Hacc)
      as (Hr & Hc & _ & He).
    auto.
  - intros Hnone.
    destruct (retry_loop_none_accepted (options s) svc k t ua f
                (maxRetries (options s)) 0 s w Hnone) as (Hr & Hc & _).
    auto.
Qed.

(** ** The back-off between attempts *)

(** C5. When every attempt ends in the [catch] (the hook throws or the
    timer wins), the loop makes [maxRetries] attempts and sleeps after each
    of them but the last, attempt [i] (from zero) being followed by
    [min(1000 * 2^i, 10000)] milliseconds: 1000, 2000, 4000, 8000, then
    10000 for good. With [maxRetries = 4] there are exactly four attempts,
    separated by 1000, 2000 and 4000 ms, and the result is [null]. *)
Theorem solveWithRetry_backoff svc k t ua (f : Hook) s w :
  (forall j, (j < maxRetries (options s))%nat -> caught (outcome_at f j w) = true) ->
  let ev := EvStrategy svc k t ua in
  let o := solveWithRetry (attempt ev f) s w in
  let n := maxRetries (options s) in
  let timer := EvTimer (timeout (options s)) in
  res o = Normal None /\
  events o = caught_trace (options s) ev n 0 /\
  strategy_calls (events o) = n /\
  sleeps (events o) = List.map backoff (List.seq 0 (n - 1)) /\
  (forall i, backoff i = Z.min (1000 * 2 ^ Z.of_nat i) 10000) /\
  List.map backoff (List.seq 0 6) = [1000; 2000; 4000; 8000; 10000; 10000]%Z /\
  (forall i, (4 <= i)%nat -> backoff i = 10000%Z) /\
  (n = 4%nat ->
   strategy_calls (events o) = 4%nat /\
   sleeps (events o) = [1000; 2000; 4000]%Z /\
   events o = [timer; ev; EvSleep 1000; timer; ev; EvSleep 2000;
               timer; ev; EvSleep 4000; timer; ev]).
Proof.
  intros Hall. cbv zeta. rewrite solveWithRetry_loop.
  assert (He : events (retry_loop (options s) (attempt (EvStrategy svc k t ua) f)
                         (maxRetries (options s)) 0 s w)
               = caught_trace (options s) (EvStrategy svc k t ua) (maxRetries (options s)) 0)
    by (apply retry_loop_all_caught; assumption).
  rewrite He.
  split.
  { apply retry_loop_none_accepted. intros j Hj. apply caught_not_accepted. auto. }
  split; [reflexivity |].
  split; [apply strategy_calls_caught_trace |].
  split; [apply sleeps_caught_trace; lia |].
  split; [reflexivity |].
  split; [apply backoff_values |].
  split; [apply backoff_capped |].
  intros H4. rewrite strategy_calls_caught_trace, sleeps_caught_trace by lia.
  rewrite H4. cbn [caught_trace]. rewrite H4. simpl.
  repeat split; reflexivity.
Qed.

(** ** [getStats] *)






(** ** Binary64 arithmetic *)

Section Binary64.

Local Open Scope Z_scope.



















End Binary64.


(** * Further properties of the solver *)

(** ** The cache key *)

Lemma append_cancel_l (a x y : string) : a +:+ x = a +:+ y -> x = y.
Proof.
  induction a as [| c a IH]; simpl; intros H; [assumption |].
  injection H as H. auto.
Qed.

(** X1. For services without a colon the cache key determines the service
    and the site key: two requests share a cache slot only when they agree
    on both. *)
Theorem getCacheKey_injective d d' :
  colon_free (captcha_service d) = true ->
  colon_free (captcha_service d') = true ->
  cacheKey d = cacheKey d' ->
  captcha_service d = captcha_service d' /\ captcha_sitekey d = captcha_sitekey d'.
Proof.
  unfold cacheKey. intros Hd Hd' Heq.
  assert (Hs : captcha_service d = captcha_service d')
    by (eapply colon_free_prefix; eassumption).
  split; [assumption |].
  rewrite Hs in Heq. apply append_cancel_l in Heq.
  simpl in Heq. injection Heq as Heq. assumption.
Qed.

(** ** What [solve] does to the cache *)

(** The solver fields after a miss, in terms of the initialized solver. *)
Lemma solve_miss_fields d ua s w :
  cache_hit s d = false ->
  let oi := initialize createWorker (incr_total s) w in
  let o := solve_ (Some d) ua s w in
  exists r,
    res o = Normal r /\ (r = None \/ truthy r = true) /\
    res (dispatch_ d ua (self oi) (world oi)) = Normal r /\
    options (self o) = options s /\
    worker (self o) = worker (self oi) /\
    initialized (self o) = initialized (self oi) /\
    cache (self o) =
      match r with
      | Some v => if truthy r && enableCaching (options s)
                  then <[cacheKey d := v]> (cache s) else cache s
      | None => cache s
      end /\
    events o = events oi ++ events (dispatch_ d ua (self oi) (world oi)).
Proof.
  intros Hmiss. cbv zeta.
  destruct (solve_miss d ua s w Hmiss) as (r & Hr & Ht & Heq).
  destruct (initialize_frame (incr_total s) w) as (_ & Ho & Hc & _ & _).
  destruct (recorded_frame (cacheKey d) r
              (self (initialize createWorker (incr_total s) w))) as (Ro & Rw & Ri).
  exists r. rewrite Heq. simpl.
  rewrite Ro, Rw, Ri, cache_recorded, Ho, Hc. simpl.
  repeat split; try assumption; reflexivity.
Qed.

(** X2. With caching enabled, a solution returned by [solve] is returned
    again by the next [solve] for the same service and site key, whatever
    its request token and user agent, without any call to the engine or to
    a hook. *)
Theorem solve_then_solve_hits d d' ua ua' s w w' v :
  enableCaching (options s) = true ->
  res (solve createWorker _advancedHCaptchaSolve _advancedRecaptchaSolve
             (Some d) ua s w) = Normal (Some v) ->
  captcha_service d' = captcha_service d ->
  captcha_sitekey d' = captcha_sitekey d ->
  let s1 := self (solve createWorker _advancedHCaptchaSolve _advancedRecaptchaSolve
                        (Some d) ua s w) in
  let o2 := solve createWorker _advancedHCaptchaSolve _advancedRecaptchaSolve
                  (Some d') ua' s1 w' in
  res o2 = Normal (Some v) /\ events o2 = [] /\ world o2 = w' /\
  cache (self o2) = cache s1.
Proof.
  intros Hen Hres Hsvc Hkey. cbv zeta.
  pose proof (cacheKey_ignores_rqtoken d d' Hsvc Hkey) as Hk.
  assert (Hs1 : enableCaching (options (self (solve_ (Some d) ua s w))) = true /\
                cache (self (solve_ (Some d) ua s w)) !! cacheKey d = Some v).
  { destruct (cache_hit s d) eqn:Hhit.
    - apply cache_hit_true in Hhit as (_ & v0 & Hv0).
      rewrite (solve_hit d ua s w v0) in Hres |- * by assumption.
      simpl in Hres |- *. injection Hres as <-. auto.
    - destruct (solve_miss_fields d ua s w Hhit)
        as (r & Hr & Ht & _ & Ho & _ & _ & Hc & _).
      rewrite Hr in Hres. injection Hres as ->.
      rewrite Ho, Hc. destruct Ht as [Ht | Ht]; [discriminate |].
      rewrite Ht, Hen. simpl. split; [reflexivity | apply lookup_insert_eq]. }
  destruct Hs1 as [Hen1 Hc1]. rewrite <- Hk in Hc1.
  rewrite (solve_hit d' ua' _ w' v Hen1 Hc1). simpl. auto.
Qed.

(** X3. [solve] leaves the cache as it is, except in one case: caching is
    enabled, the call missed the cache and ended with a non-empty solution;
    then that solution is stored under the key of the request and nothing
    else changes. In particular a call that returns [null], and any call
    with caching disabled, leaves the cache untouched. *)
Theorem solve_cache_effect cd ua s w :
  let o := solve createWorker _advancedHCaptchaSolve _advancedRecaptchaSolve
                 cd ua s w in
  (cache (self o) = cache s \/
   exists d v,
     cd = Some d /\ enableCaching (options s) = true /\ cache_hit s d = false /\
     res o = Normal (Some v) /\ v <> "" /\
     cache (self o) = <[cacheKey d := v]> (cache s)) /\
  (res o = Normal None -> cache (self o) = cache s) /\
  (enableCaching (options s) = false -> cache (self o) = cache s).
Proof.
  cbv zeta. destruct cd as [d |].
  2:{ rewrite solve_null. simpl. auto. }
  destruct (cache_hit s d) eqn:Hhit.
  - pose proof (cache_hit_true s d Hhit) as (Hen & v & Hv).
    rewrite (solve_hit d ua s w v) by assumption. simpl. auto.
  - destruct (solve_miss_fields d ua s w Hhit)
      as (r & Hr & Ht & _ & _ & _ & _ & Hc & _).
    rewrite Hr, Hc. destruct r as [v |]; [| auto].
    destruct Ht as [Ht | Ht]; [discriminate |]. rewrite Ht. simpl.
    destruct (enableCaching (options s)) eqn:Hen.
    + split; [| split; [discriminate | discriminate]].
      right. exists d, v. repeat split; try reflexivity; try assumption.
      apply truthy_nonempty. assumption.
    + split; [left; reflexivity |]. split; [discriminate | reflexivity].
Qed.

(** X4. On a solver reached through the public methods [solve] never
    returns the empty string: its value is [null] or a non-empty solution,
    so a caller's [if (solution)] test sees every solution. *)
Theorem solve_null_or_nonempty o cd ua s w :
  reachable createWorker terminate _advancedHCaptchaSolve _advancedRecaptchaSolve o s ->
  exists r,
    res (solve createWorker _advancedHCaptchaSolve _advancedRecaptchaSolve
               cd ua s w) = Normal r /\
    (r = None \/ exists v, r = Some v /\ v <> "").
Proof.
  intros Hreach. apply reachable_invariant in Hreach as (_ & _ & _ & Hc).
  destruct cd as [d |].
  2:{ exists None. rewrite solve_null. auto. }
  destruct (cache_hit s d) eqn:Hhit.
  - apply cache_hit_true in Hhit as (Hen & v & Hv).
    rewrite (solve_hit d ua s w v) by assumption.
    exists (Some v). split; [reflexivity |]. right. exists v.
    split; [reflexivity |]. apply (Hc _ _ Hv).
  - destruct (solve_miss d ua s w Hhit) as (r & _ & Ht & Heq).
    rewrite Heq. exists r. split; [reflexivity |].
    destruct Ht as [-> | Ht]; [auto |].
    destruct r as [v |]; [| discriminate].
    right. exists v. split; [reflexivity |]. apply truthy_nonempty. assumption.
Qed.

(** ** The effort of one call *)

Lemma backoff_bounds j : (1000 <= backoff j <= 10000)%Z.
Proof.
  unfold backoff.
  assert (0 < 2 ^ Z.of_nat j)%Z by (apply Z.pow_pos_nonneg; lia).
  lia.
Qed.

Lemma timers_app (a b : list (@Event Worker)) :
  timers (a ++ b) = (timers a + timers b)%nat.
Proof. unfold timers. rewrite List.filter_app, List.length_app. reflexivity. Qed.

Lemma engine_starts_app (a b : list (@Event Worker)) :
  engine_starts (a ++ b) = (engine_starts a + engine_starts b)%nat.
Proof. unfold engine_starts. rewrite List.filter_app, List.length_app. reflexivity. Qed.

Lemma round_events_allowed opts svc d ua i c :
  captcha_service d = service_name svc ->
  Forall (allowed_event (Worker:=Worker) opts (Some d) ua)
         (round_events opts
            (EvStrategy svc (captcha_sitekey d) (captcha_rqtoken d) ua) i c).
Proof.
  intros Hsvc. unfold round_events. apply Forall_app. split.
  - constructor; [reflexivity |]. constructor; [| constructor].
    simpl. exists d. auto.
  - destruct (caught c && (i <? maxRetries opts - 1)%nat); constructor.
    + apply backoff_bounds.
    + constructor.
Qed.

(** The rounds of a loop only arm the timer, call the hook and sleep. *)
Lemma retry_loop_allowed opts svc d ua (f : Hook) n : forall i s w,
  captcha_service d = service_name svc ->
  Forall (allowed_event opts (Some d) ua)
         (events (retry_loop opts
                    (attempt (EvStrategy svc (captcha_sitekey d) (captcha_rqtoken d) ua) f)
                    n i s w)).
Proof.
  induction n as [| n IH]; intros i s w Hsvc.
  - constructor.
  - destruct (accepted (fst (f w))) eqn:Hacc.
    + rewrite retry_loop_stop by assumption. simpl events.
      constructor; [reflexivity |]. constructor; [| constructor].
      simpl. exists d. auto.
    + rewrite retry_loop_next by assumption. rewrite events_after.
      apply Forall_app. split; [apply round_events_allowed; assumption | auto].
Qed.

(** One timer per call of the hook, no engine start, and at most one sleep
    per round that is not the last. *)
Lemma retry_loop_counts opts svc k t ua (f : Hook) n : forall i s w,
  let evs := events (retry_loop opts (attempt (EvStrategy svc k t ua) f) n i s w) in
  timers evs = strategy_calls evs /\
  engine_starts evs = 0%nat /\
  (List.length (sleeps evs) <= maxRetries opts - 1 - i)%nat.
Proof.
  induction n as [| n IH]; intros i s w; cbv zeta.
  - simpl. repeat split. unfold sleeps. simpl. lia.
  - destruct (accepted (fst (f w))) eqn:Hacc.
    + rewrite retry_loop_stop by assumption. simpl. repeat split.
      unfold sleeps. simpl. lia.
    + rewrite retry_loop_next by assumption.
      destruct (IH (S i) s (snd (f w))) as (Ht & He & Hs).
      rewrite events_after, timers_app, strategy_calls_app, engine_starts_app,
        sleeps_app, List.length_app, Ht, He.
      unfold round_events.
      destruct (caught (fst (f w)) && (i <? maxRetries opts - 1)%nat) eqn:Hc.
      * apply andb_true_iff in Hc as [_ Hi]. apply Nat.ltb_lt in Hi.
        repeat split. unfold sleeps at 1. simpl. lia.
      * repeat split. unfold sleeps at 1. simpl. lia.
Qed.

Lemma total_sleep_bound (evs : list (@Event Worker)) :
  Forall (fun ms => (1000 <= ms <= 10000)%Z) (sleeps evs) ->
  (total_sleep evs <= 10000 * Z.of_nat (List.length (sleeps evs)))%Z.
Proof.
  unfold total_sleep. induction (sleeps evs) as [| ms l IH]; intros H.
  - simpl. lia.
  - apply Forall_cons in H as [Hms Hl]. specialize (IH Hl).
    cbn [List.fold_right List.length]. lia.
Qed.

Lemma allowed_sleeps opts cd ua (evs : list (@Event Worker)) :
  Forall (allowed_event opts cd ua) evs ->
  Forall (fun ms => (1000 <= ms <= 10000)%Z) (sleeps evs).
Proof.
  induction 1 as [| e evs He _ IH]; [constructor |].
  change (e :: evs) with ([e] ++ evs). rewrite sleeps_app.
  apply Forall_app. split; [| assumption].
  destruct e; unfold sleeps; simpl; constructor; [assumption | constructor].
Qed.

(** The same for the dispatch. *)
Lemma dispatch_effort d ua s w :
  let evs := events (dispatch_ d ua s w) in
  (strategy_calls evs <= maxRetries (options s))%nat /\
  timers evs = strategy_calls evs /\
  engine_starts evs = 0%nat /\
  (List.length (sleeps evs) <= maxRetries (options s) - 1)%nat /\
  Forall (allowed_event (options s) (Some d) ua) evs.
Proof.
  cbv zeta. unfold dispatch.
  destruct (String.eqb (captcha_service d) "hcaptcha") eqn:Hh;
    [| destruct (String.eqb (captcha_service d) "recaptcha") eqn:Hr].
  - apply String.eqb_eq in Hh. unfold solveHCaptcha. rewrite solveWithRetry_loop.
    destruct (retry_loop_counts (options s) HCaptcha (captcha_sitekey d)
                (captcha_rqtoken d) ua
                (_advancedHCaptchaSolve (captcha_sitekey d) (captcha_rqtoken d) ua)
                (maxRetries (options s)) 0 s w) as (Ht & He & Hs).
    split; [apply retry_loop_calls_le |].
    split; [assumption |]. split; [assumption |]. split; [lia |].
    apply retry_loop_allowed. assumption.
  - apply String.eqb_eq in Hr. unfold solveRecaptcha. rewrite solveWithRetry_loop.
    destruct (retry_loop_counts (options s) Recaptcha (captcha_sitekey d)
                (captcha_rqtoken d) ua
                (_advancedRecaptchaSolve (captcha_sitekey d) (captcha_rqtoken d) ua)
                (maxRetries (options s)) 0 s w) as (Ht & He & Hs).
    split; [apply retry_loop_calls_le |].
    split; [assumption |]. split; [assumption |]. split; [lia |].
    apply retry_loop_allowed. assumption.
  - simpl. unfold strategy_calls, sleeps. simpl. repeat split; try lia. constructor.
Qed.

(** The events of [solve], path by path. *)
Lemma solve_events cd ua s w :
  events (solve_ cd ua s w) = [] \/
  exists d,
    cd = Some d /\ cache_hit s d = false /\
    let oi := initialize createWorker (incr_total s) w in
    options (self oi) = options s /\
    events (solve_ cd ua s w)
    = (if initialized s then [] else [EvCreateWorker])
      ++ events (dispatch_ d ua (self oi) (world oi)).
Proof.
  destruct cd as [d |]; [| left; reflexivity].
  destruct (cache_hit s d) eqn:Hhit.
  - apply cache_hit_true in Hhit as (Hen & v & Hv).
    rewrite (solve_hit d ua s w v) by assumption. left. reflexivity.
  - right. exists d. split; [reflexivity |]. split; [exact Hhit |]. cbv zeta.
    destruct (solve_miss d ua s w Hhit) as (r & _ & _ & Heq).
    destruct (initialize_frame (incr_total s) w) as (_ & Ho & _ & _ & He).
    rewrite Heq. simpl events. rewrite He. split; [exact Ho | reflexivity].
Qed.

(** X5. One call of [solve] is bounded in what it costs: the hooks are
    called at most [maxRetries] times, with one timeout timer per call; the
    engine is started at most once; there are at most [maxRetries - 1]
    back-off sleeps, each between 1 and 10 seconds, so at most
    [10000 * (maxRetries - 1)] ms of back-off in all. *)
Theorem solve_effort_bounded cd ua s w :
  let evs := events (solve createWorker _advancedHCaptchaSolve _advancedRecaptchaSolve
                           cd ua s w) in
  let n := maxRetries (options s) in
  (strategy_calls evs <= n)%nat /\
  timers evs = strategy_calls evs /\
  (engine_starts evs <= 1)%nat /\
  (List.length (sleeps evs) <= n - 1)%nat /\
  (total_sleep evs <= 10000 * Z.of_nat (n - 1))%Z.
Proof.
  cbv zeta.
  assert (Hmain :
    let evs := events (solve_ cd ua s w) in
    (strategy_calls evs <= maxRetries (options s))%nat /\
    timers evs = strategy_calls evs /\
    (engine_starts evs <= 1)%nat /\
    (List.length (sleeps evs) <= maxRetries (options s) - 1)%nat /\
    Forall (fun ms => (1000 <= ms <= 10000)%Z) (sleeps evs)).
  { cbv zeta. destruct (solve_events cd ua s w) as [-> | (d & -> & Hmiss & Ho & ->)].
    - unfold strategy_calls, timers, engine_starts, sleeps. simpl.
      repeat split; try lia. constructor.
    - destruct (dispatch_effort d ua
                  (self (initialize createWorker (incr_total s) w))
                  (world (initialize createWorker (incr_total s) w)))
        as (Hc & Ht & He & Hs & Ha).
      rewrite Ho in Hc, Hs, Ha.
      rewrite strategy_calls_app, timers_app, engine_starts_app, sleeps_app,
        List.length_app, Ht, He.
      apply allowed_sleeps in Ha.
      destruct (initialized s); simpl; repeat split; try lia; try assumption.
      all: unfold strategy_calls, timers; simpl; lia. }
  destruct Hmain as (Hc & Ht & He & Hs & Hb).
  repeat split; try assumption.
  pose proof (total_sleep_bound _ Hb). lia.
Qed.

(** X6. [solve] hands the request to the right hook and to no other: every
    hook call in its trace is the hook of the request's service, with the
    request's site key and request token and the caller's user agent; every
    timer has the configured timeout; every sleep lasts between 1 and 10
    seconds; and [solve] never terminates the worker. A request that is
    [null] calls nothing. *)
Theorem solve_routes_request cd ua s w :
  let evs := events (solve createWorker _advancedHCaptchaSolve _advancedRecaptchaSolve
                           cd ua s w) in
  Forall (allowed_event (options s) cd ua) evs /\
  (cd = None -> evs = []).
Proof.
  cbv zeta. split.
  - destruct (solve_events cd ua s w) as [-> | (d & -> & Hmiss & Ho & ->)];
      [constructor |].
    apply Forall_app. split.
    + destruct (initialized s); repeat constructor.
    + rewrite <- Ho. apply dispatch_effort.
  - intros ->. reflexivity.
Qed.

(** ** The engine *)

(** X7. Once the engine is started [solve] does not start it again: on an
    initialized solver no call of [solve] reaches [createWorker], and the
    worker and the flag stay as they are. *)
Theorem solve_keeps_started_engine cd ua s w :
  initialized s = true ->
  let o := solve createWorker _advancedHCaptchaSolve _advancedRecaptchaSolve
                 cd ua s w in
  engine_starts (events o) = 0%nat /\
  worker (self o) = worker s /\
  initialized (self o) = true.
Proof.
  intros Hi. cbv zeta. destruct cd as [d |].
  2:{ rewrite solve_null. simpl. auto. }
  destruct (cache_hit s d) eqn:Hhit.
  - apply cache_hit_true in Hhit as (Hen & v & Hv).
    rewrite (solve_hit d ua s w v) by assumption. simpl. auto.
  - destruct (solve_miss_fields d ua s w Hhit)
      as (r & _ & _ & _ & _ & Hw & Hf & _ & He).
    rewrite Hw, Hf, He.
    rewrite (initialize_done (incr_total s) w Hi). simpl.
    split; [| auto]. apply dispatch_effort.
Qed.

(** X8. On every solver reached through the public methods the flag and
    the worker agree: the solver is initialized exactly when it holds a
    worker. No worker is held that [cleanup] would not terminate, and no
    initialized solver lacks its worker. *)
Theorem reachable_engine_consistent o s :
  reachable createWorker terminate _advancedHCaptchaSolve _advancedRecaptchaSolve o s ->
  (initialized s = true <-> is_Some (worker s)).
Proof.
  intros Hreach. split; [apply (reachable_invariant o s Hreach) |].
  induction Hreach as [| s cd ua w _ IH | s w _ IH | s w _ IH | s w _ IH | s w _ IH].
  - simpl. intros [wk Hwk]. discriminate.
  - assert (Hinit : is_Some (worker (self (initialize createWorker (incr_total s) w))) ->
                    initialized (self (initialize createWorker (incr_total s) w)) = true).
    { destruct (initialized s) eqn:Hi.
      - rewrite (initialize_done (incr_total s) w Hi). simpl. auto.
      - rewrite (initialize_start (incr_total s) w Hi).
        destruct (createWorker w) as [[e | wk] w']; simpl; auto.
        intros H. apply IH in H. congruence. }
    destruct cd as [d |]; [| rewrite solve_null; exact IH].
    destruct (cache_hit s d) eqn:Hhit.
    + apply cache_hit_true in Hhit as (Hen & v & Hv).
      rewrite (solve_hit d ua s w v) by assumption. exact IH.
    + destruct (solve_miss_fields d ua s w Hhit)
        as (r & _ & _ & _ & _ & Hw & Hf & _ & _).
      rewrite Hw, Hf. exact Hinit.
  - destruct (initialized s) eqn:Hi.
    + rewrite (initialize_done s w Hi). simpl. intros _. exact Hi.
    + rewrite (initialize_start s w Hi).
      destruct (createWorker w) as [[e | wk] w']; simpl; auto.
      intros H. apply IH in H. congruence.
  - exact IH.
  - exact IH.
  - rewrite cleanup_run. destruct (worker s) eqn:Hw; simpl.
    + intros [wk Hwk]. discriminate.
    + rewrite Hw. exact IH.
Qed.

Lemma retry_loop_calls_ge opts svc k t ua (f : Hook) n i s w :
  (1 <= strategy_calls
          (events (retry_loop opts (attempt (EvStrategy svc k t ua) f) (S n) i s w)))%nat.
Proof.
  destruct (accepted (fst (f w))) eqn:Hacc.
  - rewrite retry_loop_stop by assumption. unfold strategy_calls. simpl. lia.
  - rewrite retry_loop_next by assumption.
    rewrite events_after, strategy_calls_app, strategy_calls_round. lia.
Qed.

(** X9. A failing engine does not stop a solve. When [createWorker]
    rejects, [solve] goes on without a worker: the solver stays
    uninitialized, the dispatch runs in the world the failed start left
    behind and decides the result, and for a known service with
    [maxRetries >= 1] the hook is called. *)
Theorem solve_engine_failure_not_fatal d ua s w e w' :
  initialized s = false ->
  cache_hit s d = false ->
  createWorker w = (inl e, w') ->
  let o := solve createWorker _advancedHCaptchaSolve _advancedRecaptchaSolve
                 (Some d) ua s w in
  let od := dispatch _advancedHCaptchaSolve _advancedRecaptchaSolve
                     d ua (incr_total s) w' in
  res o = res od /\
  events o = EvCreateWorker :: events od /\
  world o = world od /\
  initialized (self o) = false /\
  worker (self o) = worker s /\
  ((captcha_service d = "hcaptcha" \/ captcha_service d = "recaptcha") ->
   (1 <= maxRetries (options s))%nat ->
   (1 <= strategy_calls (events o))%nat).
Proof.
  intros Hi Hmiss Hcw. cbv zeta.
  destruct (solve_miss d ua s w Hmiss) as (r & Hr & _ & Heq).
  destruct (recorded_frame (cacheKey d) r
              (self (initialize createWorker (incr_total s) w))) as (_ & Rw & Ri).
  rewrite Heq. simpl. rewrite Rw, Ri.
  rewrite (initialize_start (incr_total s) w Hi) in Hr |- *. rewrite Hcw in Hr |- *.
  simpl in Hr |- *. rewrite Hr.
  repeat split; try assumption.
  intros Hsvc Hn.
  change (EvCreateWorker :: ?l) with ([EvCreateWorker (Worker:=Worker)] ++ l).
  rewrite strategy_calls_app. unfold dispatch.
  destruct (maxRetries (options s)) as [| n] eqn:Hmax; [lia |].
  assert (Hmax' : maxRetries (options (incr_total s)) = S n) by exact Hmax.
  assert (Hd : forall svc (f : Hook),
            (1 <= strategy_calls
                    (events (solveWithRetry
                               (attempt (EvStrategy svc (captcha_sitekey d)
                                                    (captcha_rqtoken d) ua) f)
                               (incr_total s) w')))%nat).
  { intros svc f. rewrite solveWithRetry_loop, Hmax'. apply retry_loop_calls_ge. }
  destruct Hsvc as [Hs | Hs]; rewrite Hs.
  - change (String.eqb "hcaptcha" "hcaptcha") with true. cbv iota.
    pose proof (Hd HCaptcha (_advancedHCaptchaSolve (captcha_sitekey d)
                               (captcha_rqtoken d) ua)) as Hge.
    unfold solveHCaptcha. lia.
  - change (String.eqb "recaptcha" "hcaptcha") with false.
    change (String.eqb "recaptcha" "recaptcha") with true. cbv iota.
    pose proof (Hd Recaptcha (_advancedRecaptchaSolve (captcha_sitekey d)
                               (captcha_rqtoken d) ua)) as Hge.
    unfold solveRecaptcha. lia.
Qed.

(** [solve] always fulfils. *)
Lemma solve_fulfils cd ua s w : exists r, res (solve_ cd ua s w) = Normal r.
Proof.
  destruct cd as [d |]; [| exists None; reflexivity].
  destruct (cache_hit s d) eqn:Hhit.
  - apply cache_hit_true in Hhit as (Hen & v & Hv).
    rewrite (solve_hit d ua s w v) by assumption. eauto.
  - destruct (solve_miss d ua s w Hhit) as (r & _ & _ & Heq).
    rewrite Heq. eauto.
Qed.


End Facts.

(** * The solver at work on concrete collaborators *)

(** C1, as stated, fails: the second call, for the same service and site key
    with another request token, hits the cache and returns "sol-A", the
    cache-hit counter goes up, but the successful counter stays at 1; the
    report then reads 50.00%, not 100.00%. *)
Lemma solve_cache_hit_successful_unchanged :
  let s := self solved_once in
  let o := solve working_engine (constant_hook (Some "sol-A")) placeholder_hook
                 (request "hcaptcha" "sk1" "token-2") "Mozilla/5.0" s (world solved_once) in
  enableCaching (options s) = true /\
  cache s !! "hcaptcha:sk1" = Some "sol-A" /\
  res o = Normal (Some "sol-A") /\
  events o = [] /\
  cached (stats (self o)) = (cached (stats s) + 1)%N /\
  successful (stats (self o)) <> (successful (stats s) + 1)%N /\
  getStats opaque_toString (self o) = mkStatsReport 2 1 0 1 "50.00%" "50.00%".
Proof.
  vm_compute. repeat split; try reflexivity. intros H. discriminate H.
Qed.

Lemma solve_cache_hit_witness :
  let s := self solved_once in
  let o := solve working_engine (constant_hook (Some "sol-A")) placeholder_hook
                 (request "hcaptcha" "sk1" "token-2") "Mozilla/5.0" s (world solved_once) in
  res o = Normal (Some "sol-A") /\
  events o = [] /\ world o = world solved_once /\
  worker (self o) = worker s /\ initialized (self o) = initialized s /\
  cache (self o) = cache s /\
  cached (stats (self o)) = (cached (stats s) + 1)%N /\
  total (stats (self o)) = (total (stats s) + 1)%N /\
  successful (stats (self o)) = successful (stats s) /\
  failed (stats (self o)) = failed (stats s).
Proof.
  apply (solve_cache_hit working_engine (constant_hook (Some "sol-A")) placeholder_hook
           (mkCaptchaData "hcaptcha" "sk1" "token-1")
           (mkCaptchaData "hcaptcha" "sk1" "token-2")
           "Mozilla/5.0" (self solved_once) (world solved_once) "sol-A");
    vm_compute; reflexivity.
Defined.

Lemma solve_never_throws_witness :
  let o := solve working_engine throwing_hook hanging_hook None "Mozilla/5.0"
                 (new (Worker:=nat) noOptions) 0%nat in
  res o = Normal None /\
  failed (stats (self o)) = (failed (stats (new (Worker:=nat) noOptions)) + 1)%N /\
  successful (stats (self o)) = successful (stats (new (Worker:=nat) noOptions)) /\
  cached (stats (self o)) = cached (stats (new (Worker:=nat) noOptions)).
Proof.
  destruct (solve_never_throws working_engine throwing_hook hanging_hook
              None "Mozilla/5.0" (new noOptions) 0%nat) as (_ & Hthrow & Hnull).
  split.
  - apply (Hthrow TypeError). reflexivity.
  - apply Hnull. apply (Hthrow TypeError). reflexivity.
Defined.

(** A hook that throws, one that never settles and the engine failing to
    start all end in [null] and one failure. *)
Lemma solve_survives_collaborators :
  let o := solve broken_engine throwing_hook hanging_hook
                 (request "hcaptcha" "sk1" "t") "Mozilla/5.0"
                 (new (Worker:=nat) noOptions) 0%nat in
  let o' := solve broken_engine throwing_hook hanging_hook
                  (request "recaptcha" "sk1" "t") "Mozilla/5.0" (self o) (world o) in
  res o = Normal None /\ stats (self o) = mkStats 1 0 1 0 /\
  res o' = Normal None /\ stats (self o') = mkStats 2 0 2 0 /\
  sleeps (events o') = [1000; 2000]%Z /\ strategy_calls (events o') = 3%nat.
Proof. vm_compute. repeat split; reflexivity. Qed.

(** C4, as stated, fails: a hook that answers the empty string gives a
    non-null result on the first attempt, yet the loop goes on, calls it
    three times and returns [null]. *)
Lemma solveWithRetry_empty_string_retried :
  let f := constant_hook (Some "") "sk1" "t" "Mozilla/5.0" in
  let o := solveWithRetry (attempt (EvStrategy HCaptcha "sk1" "t" "Mozilla/5.0") f)
                          (new (Worker:=nat) noOptions) 0%nat in
  outcome_at f 0 0%nat = Normal (Some "") /\
  res o = Normal None /\
  res o <> Normal (Some "") /\
  strategy_calls (events o) = 3%nat.
Proof.
  vm_compute. repeat split; try reflexivity. intros H. discriminate H.
Qed.

Lemma solveWithRetry_attempts_witness :
  let f := late_hook 2 "tok" "sk1" "t" "Mozilla/5.0" in
  let ev := EvStrategy (Worker:=nat) HCaptcha "sk1" "t" "Mozilla/5.0" in
  let o := solveWithRetry (attempt ev f) (new noOptions) 0%nat in
  res o = Normal (Some "tok") /\
  strategy_calls (events o) = 3%nat /\
  exists before, events o = before ++ [EvTimer 30000; ev].
Proof.
  apply (proj1 (proj2 (proj2 (solveWithRetry_attempts HCaptcha "sk1" "t" "Mozilla/5.0"
           (late_hook 2 "tok" "sk1" "t" "Mozilla/5.0") (new noOptions) 0%nat)))
           2%nat).
  - vm_compute. lia.
  - intros [| [| j']] Hj; try reflexivity. lia.
  - reflexivity.
Defined.

Lemma solveWithRetry_backoff_witness :
  let ev := EvStrategy (Worker:=nat) Recaptcha "sk1" "t" "Mozilla/5.0" in
  let o := solveWithRetry (attempt ev (throwing_hook "sk1" "t" "Mozilla/5.0"))
                          (new fourRetries) 0%nat in
  strategy_calls (events o) = 4%nat /\
  sleeps (events o) = [1000; 2000; 4000]%Z /\
  events o = [EvTimer 30000; ev; EvSleep 1000; EvTimer 30000; ev; EvSleep 2000;
              EvTimer 30000; ev; EvSleep 4000; EvTimer 30000; ev].
Proof.
  apply (solveWithRetry_backoff Recaptcha "sk1" "t" "Mozilla/5.0"
           (throwing_hook "sk1" "t" "Mozilla/5.0") (new fourRetries) 0%nat).
  - intros j Hj. reflexivity.
  - reflexivity.
Defined.

(** The same four attempts with a hook that never settles: the timer wins
    each time. *)
Lemma solveWithRetry_backoff_timeout :
  let ev := EvStrategy (Worker:=nat) HCaptcha "sk1" "t" "Mozilla/5.0" in
  let o := solveWithRetry (attempt ev (hanging_hook "sk1" "t" "Mozilla/5.0"))
                          (new fourRetries) 0%nat in
  res o = Normal None /\
  sleeps (events o) = [1000; 2000; 4000]%Z /\ strategy_calls (events o) = 4%nat.
Proof. vm_compute. repeat split; reflexivity. Qed.

(** The hooks as shipped return [null]: four attempts, no sleep. *)
Lemma solveWithRetry_placeholder_no_sleep :
  let ev := EvStrategy (Worker:=nat) HCaptcha "sk1" "t" "Mozilla/5.0" in
  let o := solveWithRetry (attempt ev (placeholder_hook "sk1" "t" "Mozilla/5.0"))
                          (new fourRetries) 0%nat in
  res o = Normal None /\
  sleeps (events o) = [] /\ strategy_calls (events o) = 4%nat.
Proof. vm_compute. repeat split; reflexivity. Qed.

(** C6, as stated, fails: after a solution for hCaptcha and the site key
    "x:y", a request for the service "hcaptcha:x" and the site key "y" has
    the same key "hcaptcha:x:y"; it is served from the cache, not answered
    with [null], and the failed counter stays. *)
Lemma solve_unknown_service_cache_collision :
  let s := self solved_colon in
  let d := mkCaptchaData "hcaptcha:x" "y" "token-2" in
  let o := solve working_engine (constant_hook (Some "sol-A")) placeholder_hook
                 (Some d) "Mozilla/5.0" s (world solved_colon) in
  reachable working_engine terminate_engine (constant_hook (Some "sol-A"))
            placeholder_hook noOptions s /\
  captcha_service d <> "hcaptcha" /\ captcha_service d <> "recaptcha" /\
  res o = Normal (Some "sol-A") /\
  res o <> Normal None /\
  failed (stats (self o)) = failed (stats s) /\
  failed (stats (self o)) <> (failed (stats s) + 1)%N.
Proof.
  split; [apply reach_solve, reach_new |].
  vm_compute. repeat split; try reflexivity; intros H; discriminate H.
Qed.

Lemma solve_unknown_service_witness :
  let s := self solved_once in
  let o := solve working_engine (constant_hook (Some "sol-A")) placeholder_hook
                 (request "unknown" "sk1" "token-2") "Mozilla/5.0" s (world solved_once) in
  res o = Normal None /\
  events o = [] /\
  strategy_calls (events o) = 0%nat /\ sleeps (events o) = [] /\
  total (stats (self o)) = 2%N /\
  failed (stats (self o)) = 1%N /\
  successful (stats (self o)) = 1%N /\
  cached (stats (self o)) = 0%N /\
  cache (self o) = cache s.
Proof.
  apply (solve_unknown_service working_engine (constant_hook (Some "sol-A"))
           placeholder_hook (mkCaptchaData "unknown" "sk1" "token-2")
           "Mozilla/5.0" (self solved_once) (world solved_once)).
  - intros H. discriminate H.
  - intros H. discriminate H.
  - vm_compute. reflexivity.
Defined.


(** A new solver, and one whose counters were reset, report "N/A" twice. *)
Lemma getStats_fresh :
  getStats opaque_toString (new (Worker:=nat) noOptions)
    = mkStatsReport 0 0 0 0 "N/A" "N/A" /\
  getStats opaque_toString (self (resetStats (self solved_once) 0%nat))
    = mkStatsReport 0 0 0 0 "N/A" "N/A".
Proof. vm_compute. split; reflexivity. Qed.

(** Some rates: thirds are rounded to the nearest hundredth, and 0.125 is an
    exact double, so the tie goes up. *)
Lemma rate_examples :
  rate opaque_toString 1 3 = "33.33%" /\ rate opaque_toString 2 3 = "66.67%" /\
  rate opaque_toString 1 800 = "0.13%" /\ rate opaque_toString 7 7 = "100.00%" /\
  rate opaque_toString 0 7 = "0.00%" /\ rate opaque_toString 3 0 = "N/A".
Proof. vm_compute. repeat split; reflexivity. Qed.

Lemma cleanup_resets_engine_and_cache_witness :
  let s := self solved_once in
  let c := cleanup terminate_engine s (world solved_once) in
  worker s = Some 1%nat /\
  events c = [EvTerminate 1%nat] /\
  worker (self c) = None /\ initialized (self c) = false /\
  cache (self c) = ∅ /\ stats (self c) = stats s.
Proof.
  destruct (cleanup_resets_engine_and_cache working_engine terminate_engine
              (constant_hook (Some "sol-A")) placeholder_hook noOptions
              (self solved_once) (world solved_once)
              (reach_solve _ _ _ _ _ _ _ _ _ (reach_new _ _ _ _ _)))
    as (_ & He & _ & Hw & Hi & Hc & Hs & _).
  repeat split; assumption || reflexivity.
Defined.

Lemma stats_balanced_witness :
  balanced (stats (self solved_once)) /\
  stats (self (solve working_engine (constant_hook (Some "sol-A")) placeholder_hook
                     (request "hcaptcha" "sk1" "token-2") "Mozilla/5.0"
                     (self solved_once) (world solved_once)))
  = mkStats 2 1 0 1.
Proof.
  destruct (stats_balanced working_engine terminate_engine
              (constant_hook (Some "sol-A")) placeholder_hook noOptions
              (self solved_once)
              (reach_solve _ _ _ _ _ _ _ _ _ (reach_new _ _ _ _ _)))
    as [Hb Hstep].
  split; [exact Hb |].
  apply (proj1 (Hstep (request "hcaptcha" "sk1" "token-2") "Mozilla/5.0"
                      (world solved_once))
               (mkCaptchaData "hcaptcha" "sk1" "token-2") eq_refl).
  vm_compute. reflexivity.
Defined.

(** With the two hooks as shipped no call that misses the cache yields a
    solution, whatever the engine does: every attempt fulfils with [null]. *)
Lemma solve_placeholder_null (engine : nat -> (Error + nat) * nat) d ua
    (s : @Solver nat) (w : nat) :
  cache_hit s d = false ->
  let o := solve engine placeholder_hook placeholder_hook (Some d) ua s w in
  res o = Normal None /\ sleeps (events o) = [] /\ cache (self o) = cache s.
Proof.
  intros Hmiss. cbv zeta.
  destruct (solve_miss engine placeholder_hook placeholder_hook d ua s w Hmiss)
    as (r & Hr & _ & Heq).
  destruct (initialize_frame engine (incr_total s) w) as (_ & _ & Hc & _ & He).
  set (oi := initialize engine (incr_total s) w) in *.
  assert (Hd : res (dispatch placeholder_hook placeholder_hook d ua (self oi) (world oi))
               = Normal None /\
               sleeps (events (dispatch placeholder_hook placeholder_hook d ua
                                        (self oi) (world oi))) = []).
  { unfold dispatch.
    destruct (String.eqb (captcha_service d) "hcaptcha");
      [| destruct (String.eqb (captcha_service d) "recaptcha")];
      [| | split; reflexivity];
      rewrite solveWithRetry_loop; (split;
        [apply retry_loop_none_accepted | apply retry_loop_fulfilled_no_sleep];
        intros j _; reflexivity). }
  destruct Hd as [Hnone Hsleep]. rewrite Hnone in Hr. injection Hr as <-.
  rewrite Heq. simpl. rewrite sleeps_app, Hsleep, He, app_nil_r.
  repeat split; [destruct (initialized (incr_total s)); reflexivity | exact Hc].
Qed.

(** * [extractText] *)

Section OcrFacts.

Context {World Worker Image OcrOptions : Type}.
Variable createWorker : World -> (Error + Worker) * World.
Variable recognize : Worker -> Image -> OcrOptions -> World -> (Error + string) * World.
Variable trim : string -> string.

(** [extractText] by cases: the engine is started when needed, then the
    text is recognized if there is a worker. *)
Lemma extractText_run img oo (s : @Solver Worker) (w : World) :
  extractText createWorker recognize trim img oo s w =
  let oi := initialize createWorker s w in
  match worker (self oi) with
  | None => mkOut (Normal "") (self oi) (world oi) (events oi)
  | Some wk =>
      match recognize wk img oo (world oi) with
      | (inr text, w') => mkOut (Normal (trim text)) (self oi) w' (events oi)
      | (inl _, w') => mkOut (Normal "") (self oi) w' (events oi)
      end
  end.
Proof.
  assert (Hbody : forall (s' : @Solver Worker) (w' : World),
    try_catch
      (bind get (fun s'' =>
         match worker s'' with
         | None => throw TypeError
         | Some wk =>
             bind (await (fun w0 =>
                     match recognize wk img oo w0 with
                     | (inr text, w1) => (Normal text, w1)
                     | (inl e, w1) => (Throw e, w1)
                     end))
                  (fun text => ret (trim text))
         end))
      (fun _ => ret "") s' w'
    = match worker s' with
      | None => mkOut (Normal "") s' w' []
      | Some wk =>
          match recognize wk img oo w' with
          | (inr text, w1) => mkOut (Normal (trim text)) s' w1 []
          | (inl _, w1) => mkOut (Normal "") s' w1 []
          end
      end).
  { intros s' w'. unfold try_catch, bind, get. cbn [after app].
    destruct (worker s') as [wk |]; [| reflexivity].
    unfold await. destruct (recognize wk img oo w') as [[e | text] w1]; reflexivity. }
  unfold extractText. unfold bind at 1. cbn [get after app].
  unfold bind at 1. cbv zeta.
  destruct (initialized s) eqn:Hi; cbn [negb].
  - rewrite (initialize_done createWorker s w Hi). cbn [ret after app self world events].
    rewrite Hbody. destruct (worker s) as [wk |]; [| reflexivity].
    destruct (recognize wk img oo w) as [[e | text] w1]; reflexivity.
  - destruct (initialize_frame createWorker s w) as (Hr & _).
    destruct (initialize createWorker s w) as [ri si wi ei]. simpl in Hr. subst ri.
    cbn [after app self world events]. rewrite Hbody.
    destruct (worker si) as [wk |]; [| simpl; rewrite app_nil_r; reflexivity].
    destruct (recognize wk img oo wi) as [[e | text] w1]; simpl;
      rewrite app_nil_r; reflexivity.
Qed.

(** X10. [extractText] never rejects, whatever the engine and the
    recognition do. It changes the solver exactly as [initialize] does:
    the cache, the counters and the options are untouched, and the engine
    is started once if the solver was not initialized and not at all
    otherwise. *)
Theorem extractText_settles img oo (s : @Solver Worker) (w : World) :
  let o := extractText createWorker recognize trim img oo s w in
  (exists text, res o = Normal text) /\
  self o = self (initialize createWorker s w) /\
  cache (self o) = cache s /\ stats (self o) = stats s /\
  options (self o) = options s /\
  events o = (if initialized s then [] else [EvCreateWorker]).
Proof.
  cbv zeta. rewrite extractText_run. cbv zeta.
  destruct (initialize_frame createWorker s w) as (_ & Ho & Hc & Hs & He).
  destruct (worker (self (initialize createWorker s w))) as [wk |].
  - destruct (recognize wk img oo (world (initialize createWorker s w)))
      as [[e | text] w1]; simpl; eauto 10.
  - simpl. eauto 10.
Qed.

(** X11. The text [extractText] returns: the trimmed text when there is a
    worker and the recognition succeeds; the empty string when the
    recognition fails, and also when no worker could be started, in which
    case the recognition is not attempted (the world is the one the failed
    start left). *)
Theorem extractText_result img oo (s : @Solver Worker) (w : World) :
  let oi := initialize createWorker s w in
  let o := extractText createWorker recognize trim img oo s w in
  (forall wk text w', worker (self oi) = Some wk ->
     recognize wk img oo (world oi) = (inr text, w') ->
     res o = Normal (trim text) /\ world o = w') /\
  (forall wk e w', worker (self oi) = Some wk ->
     recognize wk img oo (world oi) = (inl e, w') ->
     res o = Normal "" /\ world o = w') /\
  (worker (self oi) = None -> res o = Normal "" /\ world o = world oi) /\
  (forall e w', initialized s = false -> worker s = None ->
     createWorker w = (inl e, w') ->
     res o = Normal "" /\ world o = w' /\ initialized (self o) = false).
Proof.
  cbv zeta. rewrite extractText_run. cbv zeta.
  split; [| split; [| split]].
  - intros wk text w' Hw Hrec. rewrite Hw, Hrec. auto.
  - intros wk e w' Hw Hrec. rewrite Hw, Hrec. auto.
  - intros Hw. rewrite Hw. auto.
  - intros e w' Hi Hw Hcw.
    rewrite (initialize_start createWorker s w Hi), Hcw. simpl.
    rewrite Hw. simpl. auto.
Qed.

End OcrFacts.

(** * The repository as shipped *)

(** With the two hooks as shipped nothing is ever cached. *)
Lemma placeholder_cache_empty engine term o (s : @Solver nat) :
  reachable engine term placeholder_hook placeholder_hook o s -> cache s = ∅.
Proof.
  induction 1 as [| s cd ua w _ IH | s w _ IH | s w _ IH | s w _ IH | s w _ IH].
  - reflexivity.
  - destruct cd as [d |]; [| rewrite solve_null; exact IH].
    assert (Hmiss : cache_hit s d = false).
    { apply cache_hit_false. right. rewrite IH. apply lookup_empty. }
    destruct (solve_placeholder_null engine d ua s w Hmiss) as (_ & _ & Hc).
    rewrite Hc. exact IH.
  - destruct (initialize_frame engine s w) as (_ & _ & Hc & _). rewrite Hc. exact IH.
  - reflexivity.
  - exact IH.
  - rewrite cleanup_run. destruct (worker s); reflexivity.
Qed.

(** X14. The solver as shipped never solves: with the two placeholder
    hooks, on every solver reached through the public methods and for every
    request, [solve] returns [null], leaves the cache empty, adds one to
    the failed counter, and does not sleep. *)
Theorem shipped_solver_never_solves engine term o (s : @Solver nat) cd ua (w : nat) :
  reachable engine term placeholder_hook placeholder_hook o s ->
  let out := solve engine placeholder_hook placeholder_hook cd ua s w in
  res out = Normal None /\
  cache (self out) = ∅ /\
  failed (stats (self out)) = (failed (stats s) + 1)%N /\
  successful (stats (self out)) = successful (stats s) /\
  sleeps (events out) = [].
Proof.
  intros Hreach. pose proof (placeholder_cache_empty engine term o s Hreach) as Hc.
  cbv zeta. destruct cd as [d |].
  2:{ rewrite solve_null. simpl. repeat split; try assumption; lia. }
  assert (Hmiss : cache_hit s d = false).
  { apply cache_hit_false. right. rewrite Hc. apply lookup_empty. }
  destruct (solve_placeholder_null engine d ua s w Hmiss) as (Hr & Hs & Hc').
  destruct (solve_miss engine placeholder_hook placeholder_hook d ua s w Hmiss)
    as (r0 & _ & _ & Heq).
  rewrite Hc', Hc. split; [assumption |]. split; [reflexivity |].
  split; [| split; [| assumption]].
  - rewrite Heq in Hr |- *. simpl in Hr |- *. injection Hr as ->.
    rewrite stats_recorded. simpl.
    destruct (initialize_frame engine (incr_total s) w) as (_ & _ & _ & Hst & _).
    rewrite Hst. simpl. lia.
  - rewrite Heq in Hr |- *. simpl in Hr |- *. injection Hr as ->.
    rewrite stats_recorded. simpl.
    destruct (initialize_frame engine (incr_total s) w) as (_ & _ & _ & Hst & _).
    rewrite Hst. reflexivity.
Qed.

(** * [AutomationUtils] *)

Section SpamDetectorFacts.

Import AutomationUtils.

Lemma filter_implied {A} (p q : A -> bool) (l : list A) :
  (forall x, p x = true -> q x = true) ->
  List.filter p (List.filter q l) = List.filter p l.
Proof.
  intros Hpq. induction l as [| x l IH]; [reflexivity |].
  simpl. destruct (q x) eqn:Hq; simpl.
  - rewrite IH. reflexivity.
  - destruct (p x) eqn:Hp; [| exact IH].
    apply Hpq in Hp. congruence.
Qed.

Lemma recent_later now now' t : (now <= now')%Z -> recent now' t = true -> recent now t = true.
Proof. unfold recent. intros Hle H. apply Z.ltb_lt in H. apply Z.ltb_lt. lia. Qed.

Lemma spam_history_snoc threshold calls u t :
  spam_history threshold (calls ++ [(u, t)])
  = fst (spamDetector threshold u t (spam_history threshold calls)).
Proof. unfold spam_history. rewrite List.fold_left_app. reflexivity. Qed.

Lemma recent_messages_snoc u now calls u0 t0 :
  recent_messages u now (calls ++ [(u0, t0)])
  = recent_messages u now calls
    ++ (if String.eqb u0 u && recent now t0 then [(u0, t0)] else []).
Proof. unfold recent_messages. rewrite List.filter_app. reflexivity. Qed.

(** What the map remembers of a user is enough to count their recent
    messages at any later time. *)
Lemma spam_history_recent threshold calls : forall u now,
  Forall (fun c => (snd c <= now)%Z) calls ->
  StronglySorted Z.le (List.map snd calls) ->
  List.filter (recent now) (default [] (spam_history threshold calls !! u))
  = List.map snd (recent_messages u now calls).
Proof.
  induction calls as [| [u0 t0] calls IH] using rev_ind; intros u now Hle Hsorted.
  - reflexivity.
  - apply Forall_app in Hle as [Hle Hlast].
    apply Forall_cons in Hlast as [Ht0 _]. simpl in Ht0.
    rewrite List.map_app in Hsorted. simpl in Hsorted.
    pose proof (StronglySorted_app_1_l _ _ _ Hsorted) as Hs.
    assert (Hle0 : Forall (fun c => (snd c <= t0)%Z) calls).
    { apply Forall_forall. intros c Hc.
      eapply (StronglySorted_app_1_elem_of _ _ _ (snd c) t0 Hsorted).
      - apply list_elem_of_fmap. exists c. auto.
      - apply list_elem_of_singleton. reflexivity. }
    rewrite spam_history_snoc, recent_messages_snoc, List.map_app.
    unfold spamDetector. cbv zeta. cbn [fst snd].
    destruct (String.eqb_spec u0 u) as [-> | Hne].
    + rewrite lookup_insert_eq. simpl (default _ (Some _)).
      rewrite List.filter_app, filter_implied
        by (intros x; apply recent_later; assumption).
      rewrite (IH u now Hle Hs). simpl.
      destruct (recent now t0); reflexivity.
    + rewrite lookup_insert_ne by assumption.
      rewrite (IH u now Hle Hs). simpl. rewrite app_nil_r. reflexivity.
Qed.

(** X16. The spam detector counts a sliding window. While the clock does
    not go back, a check of [userId] at [now] answers that the user is
    spamming exactly when more than [threshold] of that user's checks,
    this one included, are less than a second old; what it stores for the
    user is the list of the times of these checks and nothing older; and
    the entries of the other users are not touched. *)
Theorem spamDetector_window threshold calls userId now :
  StronglySorted Z.le (List.map snd calls ++ [now]) ->
  let window := recent_messages userId now (calls ++ [(userId, now)]) in
  let st := spam_history threshold calls in
  snd (spamDetector threshold userId now st)
  = (threshold <? Z.of_nat (List.length window))%Z /\
  fst (spamDetector threshold userId now st) !! userId = Some (List.map snd window) /\
  (forall other, other <> userId ->
     fst (spamDetector threshold userId now st) !! other = st !! other).
Proof.
  intros Hsorted. cbv zeta.
  pose proof (StronglySorted_app_1_l _ _ _ Hsorted) as Hs.
  assert (Hle : Forall (fun c => (snd c <= now)%Z) calls).
  { apply Forall_forall. intros c Hc.
    eapply (StronglySorted_app_1_elem_of _ _ _ (snd c) now Hsorted).
    - apply list_elem_of_fmap. exists c. auto.
    - apply list_elem_of_singleton. reflexivity. }
  assert (Hstored :
    List.filter (recent now) (default [] (spam_history threshold calls !! userId)) ++ [now]
    = List.map snd (recent_messages userId now (calls ++ [(userId, now)]))).
  { rewrite recent_messages_snoc, List.map_app,
      (spam_history_recent threshold calls userId now Hle Hs).
    rewrite String.eqb_refl.
    assert (Hnow : recent now now = true)
      by (unfold recent; apply Z.ltb_lt; lia).
    rewrite Hnow. reflexivity. }
  unfold spamDetector. cbn [fst snd]. rewrite Hstored.
  split; [rewrite List.length_map; reflexivity |].
  split; [apply lookup_insert_eq |].
  intros other Hne. apply lookup_insert_ne. congruence.
Qed.

End SpamDetectorFacts.

Section RateLimiterFacts.

Import AutomationUtils.

Lemma fold_left_min_in (l : list Z) : forall t,
  List.fold_left Z.min l t = t \/ In (List.fold_left Z.min l t) l.
Proof.
  induction l as [| x l IH]; intros t; [left; reflexivity |].
  simpl. destruct (IH (Z.min t x)) as [H | H]; [| auto].
  rewrite H. destruct (Z.min_spec t x) as [[_ ->] | [_ ->]]; auto.
Qed.

Lemma math_min_in (l : list Z) m : math_min l = Some m -> In m l.
Proof.
  destruct l as [| t l]; [discriminate |]. simpl. intros [= <-].
  destruct (fold_left_min_in l t) as [-> | H]; auto.
Qed.

Lemma filter_shorter {A} (f : A -> bool) (l : list A) :
  (List.length (List.filter f l) < List.length l)%nat ->
  exists x, In x l /\ f x = false.
Proof.
  induction l as [| x l IH]; simpl; [lia |].
  destruct (f x) eqn:Hf; simpl; intros H.
  - destruct IH as (y & Hy & Hfy); [lia | eauto].
  - eauto.
Qed.

(** The facts a run keeps. *)
Lemma limiter_run_invariant maxActions timeWindowMs starts queue clock :
  (1 <= maxActions)%nat ->
  limiter_run maxActions timeWindowMs starts queue clock ->
  Forall (fun t => (t <= clock)%Z) starts /\
  (forall i j a b, (i <= j)%nat ->
     starts !! i = Some a -> starts !! j = Some b -> (a <= b)%Z) /\
  queue = drop (List.length starts - maxActions) starts /\
  (forall k a b, starts !! k = Some a -> starts !! (k + maxActions)%nat = Some b ->
     (a + timeWindowMs <= b)%Z).
Proof.
  intros Hmax. induction 1 as [clock | starts queue clock now started _ IH Hc Hn Hw].
  - repeat split; try constructor; intros; discriminate.
  - destruct IH as (Hle & Hmono & Hq & Hsp).
    set (m := List.length starts) in *.
    assert (Hle' : Forall (fun t => (t <= started)%Z) starts).
    { eapply List.Forall_impl; [| exact Hle]. simpl. intros t Ht. lia. }
    assert (Hmono' : forall i j a b, (i <= j)%nat ->
              (starts ++ [started]) !! i = Some a ->
              (starts ++ [started]) !! j = Some b -> (a <= b)%Z).
    { intros i j a b Hij Ha Hb.
      destruct (Nat.lt_ge_cases j m) as [Hj | Hj].
      - rewrite lookup_app_l in Ha, Hb by (fold m; lia). eauto.
      - assert (b = started).
        { rewrite lookup_app_r in Hb by (fold m; lia).
          apply list_elem_of_lookup_2 in Hb. apply list_elem_of_singleton in Hb.
          assumption. }
        subst b. apply list_elem_of_lookup_2 in Ha.
        apply elem_of_app in Ha as [Ha | Ha].
        + rewrite Forall_forall in Hle'. auto.
        + apply list_elem_of_singleton in Ha. lia. }
    split; [| split; [exact Hmono' | split]].
    + apply Forall_app. split; [assumption |]. constructor; [lia | constructor].
    + unfold execute_queue. rewrite Hq.
      rewrite <- (drop_app_le starts [started]) by lia.
      change (@List.skipn Z) with (@drop Z). rewrite drop_drop.
      f_equal. rewrite length_drop, !length_app. simpl. fold m. lia.
    + intros k a b Ha Hb.
      destruct (Nat.lt_ge_cases (k + maxActions) m) as [Hk | Hk].
      { rewrite lookup_app_l in Ha, Hb by (fold m; lia). eauto. }
      assert (b = started).
      { rewrite lookup_app_r in Hb by (fold m; lia).
        apply list_elem_of_lookup_2 in Hb. apply list_elem_of_singleton in Hb.
        assumption. }
      subst b.
      assert (Hkm : (k + maxActions = m)%nat).
      { apply lookup_lt_Some in Hb. rewrite length_app in Hb. simpl in Hb.
        fold m in Hb. lia. }
      rewrite lookup_app_l in Ha by (fold m; lia).
      assert (Hqk : queue = drop k starts) by (rewrite Hq; f_equal; lia).
      assert (Hfirst : forall t, In t queue -> (a <= t)%Z).
      { intros t Ht. rewrite Hqk in Ht. apply list_elem_of_In in Ht.
        apply list_elem_of_lookup in Ht as [i Hi]. rewrite lookup_drop in Hi.
        apply (Hmono k (k + i)%nat a t); [lia | assumption | assumption]. }
      assert (Hlen : List.length queue = maxActions).
      { rewrite Hqk, length_drop. fold m. lia. }
      unfold waitTime in Hw.
      set (valid := List.filter (fun time => (now - time <? timeWindowMs)%Z) queue) in *.
      destruct (maxActions <=? List.length valid)%nat eqn:Hfull.
      * apply Nat.leb_le in Hfull.
        destruct (math_min valid) as [oldest |] eqn:Hmin.
        2:{ destruct valid; [simpl in Hfull; lia | discriminate]. }
        pose proof (math_min_in _ _ Hmin) as Hin.
        apply List.filter_In in Hin as [Hin _].
        specialize (Hw _ eq_refl). specialize (Hfirst _ Hin). lia.
      * apply Nat.leb_gt in Hfull.
        destruct (filter_shorter (fun time => (now - time <? timeWindowMs)%Z) queue)
          as (t & Ht & Hold); [fold valid; lia |].
        apply Z.ltb_ge in Hold. specialize (Hfirst _ Ht). lia.
Qed.

(** X17. The rate limiter keeps its promise. For [maxActions >= 1], in a
    sequence of calls made one after the other, with a clock that does not
    go back and sleeps that last at least as long as asked, any action and
    the one [maxActions] calls later start at least [timeWindowMs] apart:
    no more than [maxActions] actions start within any span shorter than
    the window. The queue holds the start times of the last [maxActions]
    actions at most. *)
Theorem rateLimiter_spacing maxActions timeWindowMs starts queue clock :
  (1 <= maxActions)%nat ->
  limiter_run maxActions timeWindowMs starts queue clock ->
  (forall k a b, starts !! k = Some a -> starts !! (k + maxActions)%nat = Some b ->
     (a + timeWindowMs <= b)%Z) /\
  (List.length queue <= maxActions)%nat /\
  queue = drop (List.length starts - maxActions) starts.
Proof.
  intros Hmax Hrun.
  destruct (limiter_run_invariant _ _ _ _ _ Hmax Hrun) as (_ & _ & Hq & Hsp).
  split; [exact Hsp |]. split; [| exact Hq].
  rewrite Hq, length_drop. lia.
Qed.

(** X18. When the limiter makes a call wait, it waits for a positive time
    of at most the window, as long as no stored time lies in the future;
    and with [maxActions >= 1] it never asks for an infinite sleep. *)
Theorem waitTime_bounds maxActions timeWindowMs now queue :
  (1 <= maxActions)%nat ->
  Forall (fun t => (t <= now)%Z) queue ->
  forall wait, waitTime maxActions timeWindowMs now queue = Some wait ->
  exists ms, wait = Some ms /\ (0 < ms <= timeWindowMs)%Z.
Proof.
  intros Hmax Hpast wait. unfold waitTime.
  set (valid := List.filter (fun time => (now - time <? timeWindowMs)%Z) queue).
  destruct (maxActions <=? List.length valid)%nat eqn:Hfull; [| discriminate].
  apply Nat.leb_le in Hfull.
  destruct (math_min valid) as [oldest |] eqn:Hmin.
  2:{ destruct valid; [simpl in Hfull; lia | discriminate]. }
  intros [= <-]. eexists. split; [reflexivity |].
  apply math_min_in in Hmin. apply List.filter_In in Hmin as [Hin Hv].
  apply Z.ltb_lt in Hv. rewrite Forall_forall in Hpast.
  apply list_elem_of_In in Hin. specialize (Hpast _ Hin). simpl in Hpast. lia.
Qed.

End RateLimiterFacts.

Section MessageQueueFacts.

Import AutomationUtils.

Context {World Message Channel : Type}.
Variable send : Channel -> Message -> World -> (Error + unit) * World.

Local Abbreviation Item := (@QueueItem Message Channel).

Lemma compareItems_before (x y : Item) :
  (compareItems x y <? 0)%Z = false <-> ranks_before y x.
Proof.
  unfold compareItems, ranks_before. rewrite Z.ltb_ge.
  destruct (Z.eqb_spec (priority y - priority x) 0); lia.
Qed.

Lemma compareItems_after (x y : Item) :
  (compareItems x y <? 0)%Z = true <-> ~ ranks_before y x.
Proof.
  rewrite <- compareItems_before. destruct (compareItems x y <? 0)%Z; split; congruence.
Qed.

Lemma ranks_before_total (x y : Item) : ranks_before x y \/ ranks_before y x.
Proof. unfold ranks_before. lia. Qed.

Lemma ranks_before_trans (x y z : Item) :
  ranks_before x y -> ranks_before y z -> ranks_before x z.
Proof. unfold ranks_before. lia. Qed.

Lemma sort_insert_perm (x : Item) l : sort_insert compareItems x l ≡ₚ x :: l.
Proof.
  induction l as [| y l IH]; simpl; [reflexivity |].
  destruct (compareItems x y <? 0)%Z; [reflexivity |].
  rewrite IH. apply Permutation_swap.
Qed.

(** Inserting into a sorted list: the new item goes behind the items that
    come before it or tie with it, and in front of the others. *)
Lemma sort_insert_split (x : Item) l :
  StronglySorted ranks_before l ->
  exists l1 l2,
    l = l1 ++ l2 /\ sort_insert compareItems x l = l1 ++ x :: l2 /\
    Forall (fun y => ranks_before y x) l1 /\
    Forall (fun y => ~ ranks_before y x) l2.
Proof.
  induction 1 as [| y l Hs IH Hy]; simpl.
  - exists [], []. repeat split; constructor.
  - destruct (compareItems x y <? 0)%Z eqn:Hc.
    + exists [], (y :: l). repeat split; [constructor |].
      apply compareItems_after in Hc.
      constructor; [assumption |].
      eapply List.Forall_impl; [| exact Hy]. simpl. intros z Hyz Hzx.
      apply Hc. eapply ranks_before_trans; eassumption.
    + destruct IH as (l1 & l2 & -> & -> & H1 & H2).
      exists (y :: l1), l2. repeat split; [| assumption].
      constructor; [apply compareItems_before; assumption | assumption].
Qed.

Lemma sort_insert_sorted (x : Item) l :
  StronglySorted ranks_before l ->
  StronglySorted ranks_before (sort_insert compareItems x l).
Proof.
  intros Hs. destruct (sort_insert_split x l Hs) as (l1 & l2 & -> & -> & H1 & H2).
  apply StronglySorted_app in Hs as (H12 & Hs1 & Hs2).
  apply StronglySorted_app. split; [| split; [assumption |]].
  - intros a Ha b Hb. apply elem_of_cons in Hb as [-> | Hb].
    + rewrite Forall_forall in H1. auto.
    + auto.
  - constructor; [assumption |].
    eapply List.Forall_impl; [| exact H2]. simpl. intros y Hy.
    destruct (ranks_before_total x y); [assumption | contradiction].
Qed.

Lemma array_sort_snoc (l : list Item) x :
  array_sort compareItems (l ++ [x])
  = sort_insert compareItems x (array_sort compareItems l).
Proof. unfold array_sort. rewrite List.fold_left_app. reflexivity. Qed.

Lemma array_sort_sorted (l : list Item) :
  StronglySorted ranks_before (array_sort compareItems l) /\
  array_sort compareItems l ≡ₚ l.
Proof.
  induction l as [| x l [IHs IHp]] using rev_ind.
  - split; [constructor | reflexivity].
  - rewrite array_sort_snoc. split.
    + apply sort_insert_sorted. assumption.
    + rewrite sort_insert_perm, IHp. apply Permutation_cons_append.
Qed.

Lemma sort_insert_last (x : Item) l :
  Forall (fun y => ranks_before y x) l -> sort_insert compareItems x l = l ++ [x].
Proof.
  induction 1 as [| y l Hy _ IH]; simpl; [reflexivity |].
  apply compareItems_before in Hy. rewrite Hy, IH. reflexivity.
Qed.

(** Sorting a sorted array changes nothing. *)
Lemma array_sort_id (l : list Item) :
  StronglySorted ranks_before l -> array_sort compareItems l = l.
Proof.
  induction l as [| x l IH] using rev_ind; intros Hs; [reflexivity |].
  rewrite array_sort_snoc.
  apply StronglySorted_app in Hs as (H12 & Hs1 & _).
  rewrite (IH Hs1). apply sort_insert_last.
  apply Forall_forall. intros y Hy. apply H12; [assumption |].
  apply list_elem_of_singleton. reflexivity.
Qed.

(** X19. [add] keeps the queue in order. After [add] the queue is sorted,
    higher priority first and earlier timestamp first within a priority,
    and holds the old items and the new one. On a queue that was in order,
    as every queue built by [add] is, the old items keep their places and
    the new item goes behind all items that come before it or tie with it:
    first in, first out among equals. *)
Theorem add_keeps_order (m : Message) (c : Channel) p now (q : MessageQueue) :
  let item := mkQueueItem m c (nullish p 0%Z) now in
  let q' := add m c p now q in
  StronglySorted ranks_before (queue q') /\
  queue q' ≡ₚ item :: queue q /\
  size q' = S (size q) /\
  processing q' = processing q /\
  (StronglySorted ranks_before (queue q) ->
   exists l1 l2,
     queue q = l1 ++ l2 /\ queue q' = l1 ++ item :: l2 /\
     Forall (fun y => ranks_before y item) l1 /\
     Forall (fun y => ~ ranks_before y item) l2).
Proof.
  cbv zeta. unfold add, size. cbn [queue processing].
  destruct (array_sort_sorted (queue q ++ [mkQueueItem m c (nullish p 0%Z) now]))
    as [Hs Hp].
  split; [assumption |].
  assert (Hp' : array_sort compareItems (queue q ++ [mkQueueItem m c (nullish p 0%Z) now])
                ≡ₚ mkQueueItem m c (nullish p 0%Z) now :: queue q).
  { rewrite Hp. symmetry. apply Permutation_cons_append. }
  split; [assumption |].
  split; [rewrite Hp'; reflexivity |].
  split; [reflexivity |].
  intros Hq. rewrite array_sort_snoc, (array_sort_id _ Hq).
  apply sort_insert_split. assumption.
Qed.

Lemma process_loop_spec delayMs (items : list Item) : forall (w : World),
  let evs := snd (process_loop send delayMs items w) in
  attempted evs
  = List.map (fun '(item, ok) => (channel item, message item, ok))
             (List.combine items (send_results send items w)) /\
  smart_delays evs
  = List.map (fun _ => delayMs)
             (List.filter (fun ok : bool => ok) (send_results send items w)) /\
  List.length (send_results send items w) = List.length items.
Proof.
  induction items as [| item rest IH]; intros w; cbv zeta.
  - repeat split.
  - cbn [process_loop send_results].
    destruct (send (channel item) (message item) w) as [[e | []] w'];
      specialize (IH w'); cbv zeta in IH; destruct IH as (Ha & Hd & Hl);
      destruct (process_loop send delayMs rest w') as [w'' evs];
      cbn [snd] in *; unfold attempted, smart_delays in *; simpl;
      rewrite ?Hl; repeat split;
      first [exact Ha | exact Hd | f_equal; first [exact Ha | exact Hd]].
Qed.

(** X20. [process] sends the whole queue, in its order. Started on a queue
    that is not being processed, it tries every queued message once, in
    the order of the queue, goes on after a failed send, calls
    [smartDelay] once after each successful send and not after a failed
    one, and ends with an empty queue and the processing flag down. While
    the flag is up a second [process] returns at once and does nothing. *)
Theorem process_sends_in_order delayMs (q : MessageQueue) (w : World) :
  let out := process send delayMs q w in
  let outcomes := send_results send (queue q) w in
  (processing q = false ->
   queue (fst (fst out)) = [] /\ processing (fst (fst out)) = false /\
   List.length outcomes = size q /\
   attempted (snd out)
   = List.map (fun '(item, ok) => (channel item, message item, ok))
              (List.combine (queue q) outcomes) /\
   smart_delays (snd out)
   = List.map (fun _ => nullish delayMs 1000%Z)
              (List.filter (fun ok : bool => ok) outcomes)) /\
  (processing q = true -> out = (q, w, [])).
Proof.
  cbv zeta. unfold process, size. split; intros Hp; rewrite Hp; [| reflexivity].
  destruct (process_loop_spec (nullish delayMs 1000%Z) (queue q) w) as (Ha & Hd & Hl).
  destruct (process_loop send (nullish delayMs 1000%Z) (queue q) w) as [w' evs].
  cbn [fst snd queue processing] in *. auto.
Qed.

End MessageQueueFacts.

Section FetchUsersFacts.

Import AutomationUtils.

Context {World User : Type}.
Variable fetch : string -> World -> (Error + User) * World.

Lemma fetch_all_app (l1 l2 : list string) (w : World) :
  fetch_all fetch (l1 ++ l2) w =
  (fst (fetch_all fetch l1 w) ++ fst (fetch_all fetch l2 (snd (fetch_all fetch l1 w))),
   snd (fetch_all fetch l2 (snd (fetch_all fetch l1 w)))).
Proof.
  revert w. induction l1 as [| id l1 IH]; intros w.
  - simpl. destruct (fetch_all fetch l2 w). reflexivity.
  - simpl. destruct (fetch id w) as [r w']. rewrite IH.
    destruct (fetch_all fetch l1 w') as [rs w'']. reflexivity.
Qed.

Lemma rounds_step n i b :
  (1 <= b)%nat -> (i < n)%nat ->
  ((n - i + b - 1) / b = S ((n - (i + b) + b - 1) / b))%nat.
Proof.
  intros Hb Hi.
  replace (n - i + b - 1)%nat with ((n - i - 1) + 1 * b)%nat by lia.
  rewrite Nat.div_add by lia. rewrite Nat.add_1_r. f_equal.
  destruct (Nat.le_gt_cases b (n - i)) as [Hge | Hlt].
  - f_equal. lia.
  - rewrite Nat.div_small by lia. rewrite Nat.div_small by lia. reflexivity.
Qed.

(** With a batch size of one or more the loop ends, having fetched what
    is left of the ids in order. *)
Lemma fetch_loop_enough (userIds : list string) b :
  (1 <= b)%nat ->
  forall fuel i users delays (w : World),
    (List.length userIds - i < fuel)%nat ->
    fetch_loop fetch fuel userIds b i users delays w =
    Some (users ++ omap id (fst (fetch_all fetch (List.skipn i userIds) w)),
          (delays + (List.length userIds - i + b - 1) / b)%nat,
          snd (fetch_all fetch (List.skipn i userIds) w)).
Proof.
  intros Hb. induction fuel as [| fuel IH]; intros i users delays w Hfuel; [lia |].
  cbn [fetch_loop]. destruct (Nat.ltb_spec i (List.length userIds)) as [Hi | Hi].
  - rewrite <- (List.firstn_skipn b (List.skipn i userIds)) at 2 3.
    rewrite List.skipn_skipn, (Nat.add_comm b i), fetch_all_app. cbn [fst snd].
    destruct (fetch_all fetch (List.firstn b (List.skipn i userIds)) w) as [bu w'].
    cbn [fst snd]. rewrite IH by lia.
    rewrite omap_app, <- app_assoc, (rounds_step _ i b Hb Hi).
    rewrite Nat.add_succ_comm. reflexivity.
  - rewrite List.skipn_all2 by lia. simpl.
    rewrite app_nil_r, Nat.div_small by lia. rewrite Nat.add_0_r. reflexivity.
Qed.

(** X21. With a batch size of one or more (five by default)
    [fetchUsersBatch] ends and returns the users whose fetch succeeded, in
    the order of [userIds]: each id is fetched once, in order, a failed
    fetch only drops that user, and the result does not depend on the batch
    size. It calls [smartDelay] once per batch, that is
    ceil(length / batchSize) times. *)
Theorem fetchUsersBatch_result fuel (userIds : list string) batchSize (w : World) :
  (1 <= nullish batchSize 5)%nat ->
  (List.length userIds < fuel)%nat ->
  fetchUsersBatch fetch fuel userIds batchSize w =
  Some (omap id (fst (fetch_all fetch userIds w)),
        ((List.length userIds + nullish batchSize 5 - 1) / nullish batchSize 5)%nat,
        snd (fetch_all fetch userIds w)).
Proof.
  intros Hb Hfuel. unfold fetchUsersBatch.
  rewrite (fetch_loop_enough userIds _ Hb) by lia.
  rewrite Nat.sub_0_r. reflexivity.
Qed.

(** X22. With a batch size of zero and at least one id the loop never
    ends: the index does not advance, whatever the number of rounds. *)
Theorem fetchUsersBatch_zero_never_ends fuel (userIds : list string) (w : World) :
  userIds <> [] ->
  fetchUsersBatch fetch fuel userIds (Some 0%nat) w = None.
Proof.
  intros Hne. unfold fetchUsersBatch. cbn [nullish].
  assert (Hloop : forall n (w' : World) users delays,
            fetch_loop fetch n userIds 0 0 users delays w' = None).
  { induction n as [| n IH]; intros w' users delays; [reflexivity |].
    cbn [fetch_loop]. destruct userIds as [| id rest]; [contradiction |].
    cbn [List.length Nat.ltb Nat.leb List.skipn List.firstn fetch_all Nat.add].
    apply IH. }
  apply Hloop.
Qed.

End FetchUsersFacts.

Section CyclePresencesFacts.

Import AutomationUtils.

Context {Presence : Type}.

Lemma tick_inside (presences : list Presence) i :
  (i < List.length presences)%nat ->
  tick presences (Some i)
  = (presences !! i, Some ((i + 1) mod List.length presences)%nat).
Proof.
  intros Hi. unfold tick. destruct (List.length presences); [lia | reflexivity].
Qed.

Lemma ticks_from (presences : list Presence) k : forall i,
  (i < List.length presences)%nat ->
  ticks presences k (Some i)
  = List.map (fun j => presences !! ((i + j) mod List.length presences)%nat)
             (List.seq 0 k).
Proof.
  induction k as [| k IH]; intros i Hi; [reflexivity |].
  cbn [ticks]. rewrite (tick_inside presences i Hi). cbn [List.seq List.map].
  rewrite Nat.add_0_r, (Nat.mod_small i) by assumption. f_equal.
  rewrite IH by (apply Nat.mod_upper_bound; lia).
  rewrite <- List.seq_shift, List.map_map.
  apply List.map_ext. intros j.
  rewrite Nat.Div0.add_mod_idemp_l. do 2 f_equal. lia.
Qed.

(** X23. [cyclePresences] goes round. For a non-empty array the tick
    number j (from zero) sets [presences[j mod length]]: every presence is
    shown in turn and the cycle starts over after the last. For an empty
    array every tick sets [undefined]. *)
Theorem cyclePresences_round_robin (presences : list Presence) k :
  (presences <> [] ->
   ticks presences k (Some 0%nat)
   = List.map (fun j => presences !! (j mod List.length presences)%nat)
              (List.seq 0 k)) /\
  (presences = [] -> ticks presences k (Some 0%nat) = List.repeat None k).
Proof.
  split.
  - intros Hne. apply ticks_from. destruct presences; [contradiction | simpl; lia].
  - intros ->. destruct k as [| k]; [reflexivity |].
    cbn [ticks tick]. simpl. f_equal.
    induction k as [| k IH]; [reflexivity |]. simpl. f_equal. exact IH.
Qed.

End CyclePresencesFacts.

(** * The further properties on concrete collaborators *)

Lemma getCacheKey_injective_witness :
  captcha_service (mkCaptchaData "hcaptcha" "sk1" "token-1")
  = captcha_service (mkCaptchaData "hcaptcha" "sk1" "token-2") /\
  captcha_sitekey (mkCaptchaData "hcaptcha" "sk1" "token-1")
  = captcha_sitekey (mkCaptchaData "hcaptcha" "sk1" "token-2").
Proof.
  apply (getCacheKey_injective (mkCaptchaData "hcaptcha" "sk1" "token-1")
           (mkCaptchaData "hcaptcha" "sk1" "token-2")); reflexivity.
Defined.

Lemma solve_then_solve_hits_witness :
  let o2 := solve working_engine (constant_hook (Some "sol-A")) placeholder_hook
                  (request "hcaptcha" "sk1" "token-2") "curl/8"
                  (self solved_once) 7%nat in
  res o2 = Normal (Some "sol-A") /\ events o2 = [] /\ world o2 = 7%nat /\
  cache (self o2) = cache (self solved_once).
Proof.
  apply (solve_then_solve_hits working_engine (constant_hook (Some "sol-A"))
           placeholder_hook
           (mkCaptchaData "hcaptcha" "sk1" "token-1")
           (mkCaptchaData "hcaptcha" "sk1" "token-2")
           "Mozilla/5.0" "curl/8" (new noOptions) 0%nat 7%nat "sol-A");
    vm_compute; reflexivity.
Defined.

Lemma solve_null_or_nonempty_witness :
  exists r,
    res (solve working_engine (constant_hook (Some "sol-A")) placeholder_hook
               (request "hcaptcha" "sk1" "token-2") "Mozilla/5.0"
               (self solved_once) (world solved_once)) = Normal r /\
    (r = None \/ exists v, r = Some v /\ v <> "").
Proof.
  apply (solve_null_or_nonempty working_engine terminate_engine
           (constant_hook (Some "sol-A")) placeholder_hook noOptions).
  apply reach_solve, reach_new.
Defined.

Lemma solve_keeps_started_engine_witness :
  let o := solve working_engine (constant_hook (Some "sol-A")) placeholder_hook
                 (request "recaptcha" "sk2" "token-3") "Mozilla/5.0"
                 (self solved_once) (world solved_once) in
  engine_starts (events o) = 0%nat /\
  worker (self o) = worker (self solved_once) /\
  initialized (self o) = true.
Proof.
  apply (solve_keeps_started_engine working_engine (constant_hook (Some "sol-A"))
           placeholder_hook). reflexivity.
Defined.

Lemma reachable_engine_consistent_witness :
  initialized (self solved_once) = true <-> is_Some (worker (self solved_once)).
Proof.
  apply (reachable_engine_consistent working_engine terminate_engine
           (constant_hook (Some "sol-A")) placeholder_hook noOptions).
  apply reach_solve, reach_new.
Defined.

Lemma solve_engine_failure_not_fatal_witness :
  let o := solve broken_engine (constant_hook (Some "sol-A")) placeholder_hook
                 (request "hcaptcha" "sk1" "token-1") "Mozilla/5.0"
                 (new (Worker:=nat) noOptions) 0%nat in
  initialized (self o) = false /\
  worker (self o) = None /\
  (1 <= strategy_calls (events o))%nat.
Proof.
  destruct (solve_engine_failure_not_fatal broken_engine (constant_hook (Some "sol-A"))
              placeholder_hook (mkCaptchaData "hcaptcha" "sk1" "token-1")
              "Mozilla/5.0" (new noOptions) 0%nat
              (CollaboratorError "no worker") 0%nat
              eq_refl eq_refl eq_refl) as (_ & _ & _ & Hi & Hw & Hc).
  split; [exact Hi |]. split; [exact Hw |].
  apply Hc; [left; reflexivity | vm_compute; lia].
Defined.

Lemma shipped_solver_never_solves_witness :
  let out := solve working_engine placeholder_hook placeholder_hook
                   (request "hcaptcha" "sk1" "token-1") "Mozilla/5.0"
                   (new (Worker:=nat) fourRetries) 0%nat in
  res out = Normal None /\
  cache (self out) = ∅ /\
  failed (stats (self out)) = (failed (stats (new (Worker:=nat) fourRetries)) + 1)%N /\
  successful (stats (self out)) = successful (stats (new (Worker:=nat) fourRetries)) /\
  sleeps (events out) = [].
Proof.
  apply (shipped_solver_never_solves working_engine terminate_engine fourRetries).
  apply reach_new.
Defined.

Lemma spamDetector_window_witness :
  snd (AutomationUtils.spamDetector 2 "u" 300
         (AutomationUtils.spam_history 2 example_checks)) = true /\
  fst (AutomationUtils.spamDetector 2 "u" 300
         (AutomationUtils.spam_history 2 example_checks)) !! "u"
  = Some [0; 100; 300]%Z.
Proof.
  destruct (spamDetector_window 2 example_checks "u" 300) as (Hf & Hs & _).
  - simpl. repeat constructor; lia.
  - split; [rewrite Hf | rewrite Hs]; reflexivity.
Defined.

Lemma rateLimiter_spacing_witness :
  (0 + 1000 <= 1000)%Z /\ (List.length [10; 1000]%Z <= 2)%nat.
Proof.
  assert (Hrun : AutomationUtils.limiter_run 2 1000 [0; 10; 1000]%Z [10; 1000]%Z 1000).
  { apply (AutomationUtils.run_execute 2 1000 [0; 10]%Z [0; 10]%Z 10 20 1000);
      [| lia | lia | intros ms H; vm_compute in H; injection H as <-; lia].
    apply (AutomationUtils.run_execute 2 1000 [0]%Z [0]%Z 0 10 10);
      [| lia | lia | intros ms H; vm_compute in H; discriminate H].
    apply (AutomationUtils.run_execute 2 1000 [] [] 0 0 0);
      [| lia | lia | intros ms H; vm_compute in H; discriminate H].
    apply AutomationUtils.run_new. }
  destruct (rateLimiter_spacing 2 1000 _ _ _ ltac:(lia) Hrun) as (Hsp & Hlen & _).
  split; [apply (Hsp 0%nat); reflexivity | exact Hlen].
Defined.

Lemma waitTime_bounds_witness :
  exists ms, Some 980%Z = Some ms /\ (0 < ms <= 1000)%Z.
Proof.
  apply (waitTime_bounds 2 1000 20 [0; 10]%Z).
  - lia.
  - repeat constructor; lia.
  - reflexivity.
Defined.

Lemma fetchUsersBatch_result_witness :
  AutomationUtils.fetchUsersBatch example_fetch 4 ["ann"; "gone"; "bob"] (Some 2%nat) 0%nat
  = Some (["ann"; "bob"], 2%nat, 3%nat).
Proof.
  apply (fetchUsersBatch_result example_fetch 4 ["ann"; "gone"; "bob"] (Some 2%nat) 0%nat);
    simpl; lia.
Defined.

Lemma fetchUsersBatch_zero_never_ends_witness :
  AutomationUtils.fetchUsersBatch example_fetch 1000 ["ann"] (Some 0%nat) 0%nat = None.
Proof.
  apply (fetchUsersBatch_zero_never_ends example_fetch 1000 ["ann"] 0%nat).
  intros H. discriminate H.
Defined.
